(** * RoBO acquisition functions: LogEI and PI

    A shallow embedding of [robo/acquisition/LogEI.py] and
    [robo/acquisition/PI.py], and the properties of the two evaluators.

    Numbers.  NumPy's binary64 values are modelled by [float64].  Zero is
    signed, as in binary64: [Fin 0] is [+0.0] and [NZero] is [-0.0]; they
    compare equal and differ in the sign of what a negation, a product, a
    quotient or a square root gives.  The special values [inf], [-inf] and
    [nan] follow the IEEE rules that NumPy applies (division by zero gives an
    infinity or [nan], never an exception).  A finite value is an exact real:
    rounding, overflow and underflow are not modelled, and [norm.cdf] is the
    exact distribution function.  The properties of the two evaluators are
    therefore stated where rounding changes the last digits of a value and
    nothing else.  Where rounding decides the outcome (the test [a >= b] of
    the subtracting branch of LogEI, between two logarithms that agree to the
    last digit) only lemmas over the reals are given, and they say so.

    Effects.  The surrogate model is an external collaborator: a call of an
    evaluator is a program over the three model methods, so that "the model is
    not invoked" is a statement about the program, for every model. *)

From Stdlib Require Import String Reals Lra Lia List Bool.
Import ListNotations.
Open Scope R_scope.

(** ** Binary64 values, idealised *)

Module Float.

(** [Fin 0] is [+0.0] and [NZero] is [-0.0]. *)
Inductive float64 : Type :=
| Fin (r : R)
| NZero
| PInf
| NInf
| NaN.

Definition Rltb (x y : R) : bool := if Rlt_dec x y then true else false.
Definition Reqb (x y : R) : bool := if Req_dec_T x y then true else false.

Definition Rcmp (x y : R) : comparison :=
  if Rlt_dec x y then Lt else if Rlt_dec y x then Gt else Eq.

(** [np.finfo(np.float).max] *)
Definition float_max : R := (2 - / 2 ^ 52) * 2 ^ 1023.

(** Negation flips the sign, of a zero too. *)
Definition fneg (a : float64) : float64 :=
  match a with
  | Fin x => if Reqb x 0 then NZero else Fin (- x)
  | NZero => Fin 0
  | PInf => NInf
  | NInf => PInf
  | NaN => NaN
  end.

Definition fabs (a : float64) : float64 :=
  match a with
  | Fin x => Fin (Rabs x)
  | NZero => Fin 0
  | PInf | NInf => PInf
  | NaN => NaN
  end.

(** A sum that is zero is [+0.0], unless both terms are [-0.0]. *)
Definition fadd (a b : float64) : float64 :=
  match a, b with
  | NaN, _ | _, NaN => NaN
  | Fin x, Fin y => Fin (x + y)
  | Fin x, NZero | NZero, Fin x => Fin x
  | NZero, NZero => NZero
  | PInf, NInf | NInf, PInf => NaN
  | PInf, _ | _, PInf => PInf
  | NInf, _ | _, NInf => NInf
  end.

Definition fsub (a b : float64) : float64 := fadd a (fneg b).

(** An infinity times (or divided by) a finite [x]: the sign of [x] decides,
    and [inf * 0] is [nan]. *)
Definition scale_inf (inf : float64) (x : R) : float64 :=
  match Rcmp x 0 with
  | Gt => inf
  | Lt => fneg inf
  | Eq => NaN
  end.

(** The sign of a product is the product of the signs, for a zero too. *)
Definition fmul (a b : float64) : float64 :=
  match a, b with
  | NaN, _ | _, NaN => NaN
  | Fin x, Fin y =>
      if (Reqb x 0 && Rltb y 0) || (Reqb y 0 && Rltb x 0) then NZero
      else Fin (x * y)
  | Fin x, NZero | NZero, Fin x => if Rltb x 0 then Fin 0 else NZero
  | NZero, NZero => Fin 0
  | Fin x, PInf | PInf, Fin x => scale_inf PInf x
  | Fin x, NInf | NInf, Fin x => scale_inf NInf x
  | NZero, (PInf | NInf) | (PInf | NInf), NZero => NaN
  | PInf, PInf | NInf, NInf => PInf
  | PInf, NInf | NInf, PInf => NInf
  end.

(** The sign of a quotient is the product of the signs: [x / +0.0] and
    [x / -0.0] are infinities of opposite signs, and [0 / 0] is [nan]. *)
Definition fdiv (a b : float64) : float64 :=
  match a, b with
  | NaN, _ | _, NaN => NaN
  | Fin x, Fin y =>
      if Reqb y 0 then scale_inf PInf x
      else if Reqb x 0 && Rltb y 0 then NZero
      else Fin (x / y)
  | Fin x, NZero => scale_inf NInf x
  | NZero, Fin y =>
      match Rcmp y 0 with
      | Gt => NZero
      | Lt => Fin 0
      | Eq => NaN
      end
  | NZero, NZero => NaN
  | Fin x, PInf => if Rltb x 0 then NZero else Fin 0
  | Fin x, NInf => if Rltb x 0 then Fin 0 else NZero
  | NZero, PInf => NZero
  | NZero, NInf => Fin 0
  | PInf, Fin y => if Rltb y 0 then NInf else PInf
  | NInf, Fin y => if Rltb y 0 then PInf else NInf
  | PInf, NZero => NInf
  | NInf, NZero => PInf
  | (PInf | NInf), (PInf | NInf) => NaN
  end.

(** The two zeros are equal, and neither is below the other. *)
Definition feq (a b : float64) : bool :=
  match a, b with
  | Fin x, Fin y => Reqb x y
  | Fin x, NZero | NZero, Fin x => Reqb x 0
  | NZero, NZero | PInf, PInf | NInf, NInf => true
  | _, _ => false
  end.

Definition flt (a b : float64) : bool :=
  match a, b with
  | Fin x, Fin y => Rltb x y
  | Fin x, NZero => Rltb x 0
  | NZero, Fin y => Rltb 0 y
  | NInf, (Fin _ | NZero | PInf) => true
  | (Fin _ | NZero), PInf => true
  | _, _ => false
  end.

Definition fle (a b : float64) : bool := flt a b || feq a b.
Definition fgt (a b : float64) : bool := flt b a.
Definition fge (a b : float64) : bool := fle b a.

(** Python's builtin [abs] and two-argument [max]: [max(a, b)] keeps [a]
    unless [b > a]. *)
Definition py_abs : float64 -> float64 := fabs.
Definition py_max (a b : float64) : float64 := if fgt b a then b else a.

End Float.
Import Float.

(** ** The standard normal distribution over the reals *)

Module Gauss.

(** Density [exp(-x^2/2) / sqrt(2 pi)]. *)
Definition pdf (x : R) : R := exp (- (x * x) / 2) / sqrt (2 * PI).

(** [scipy]'s [_norm_logpdf]: [-x^2/2 - log(sqrt(2 pi))]. *)
Definition logpdf (x : R) : R := - (x * x) / 2 - ln (sqrt (2 * PI)).

Lemma sqrt_2PI_pos : 0 < sqrt (2 * PI).
Proof. apply sqrt_lt_R0. generalize PI_RGT_0. lra. Qed.

Lemma pdf_pos x : 0 < pdf x.
Proof.
  unfold pdf. apply Rdiv_lt_0_compat; [apply exp_pos | apply sqrt_2PI_pos].
Qed.

Lemma pdf_continuity : continuity pdf.
Proof. unfold pdf. reg. Qed.

Lemma pdf_deriv x : derivable_pt_lim pdf x (- x * pdf x).
Proof.
  unfold pdf.
  apply (derivable_pt_lim_ext
           (fun y => comp exp (fun t => - (t * t) / 2) y / sqrt (2 * PI))).
  { intros z. reflexivity. }
  replace (- x * (exp (- (x * x) / 2) / sqrt (2 * PI)))
    with ((exp (- (x * x) / 2) * (- x)) / sqrt (2 * PI))
    by (unfold Rdiv; ring).
  apply derivable_pt_lim_div_scal.
  apply derivable_pt_lim_comp; [ | apply derivable_pt_lim_exp].
  apply (derivable_pt_lim_ext ((fun t => (t * t) * (-1 / 2)))).
  { intros z. field. }
  replace (- x) with ((1 * x + x * 1) * (-1 / 2)) by field.
  apply derivable_pt_lim_scal_right.
  apply (derivable_pt_lim_mult id id); apply derivable_pt_lim_id.
Qed.

Lemma integrable (a b : R) : Riemann_integrable pdf a b.
Proof.
  destruct (Rle_dec a b) as [Hab | Hab].
  - apply continuity_implies_RiemannInt; [exact Hab | ].
    intros x _. apply pdf_continuity.
  - apply RiemannInt_P1, continuity_implies_RiemannInt; [lra | ].
    intros x _. apply pdf_continuity.
Qed.

(** [area x] is the integral of the density from [0] to [x]. *)
Definition area (x : R) : R := RiemannInt (integrable 0 x).

Lemma area_chasles a b (pr : Riemann_integrable pdf a b) :
  area b - area a = RiemannInt pr.
Proof.
  unfold area.
  rewrite <- (RiemannInt_P26 (integrable 0 a) pr (integrable 0 b)). ring.
Qed.

Lemma area_deriv x : derivable_pt_lim area x (pdf x).
Proof.
  assert (h : x - 1 <= x + 1) by lra.
  assert (C0 : forall y, x - 1 <= y <= x + 1 -> continuity_pt pdf y)
    by (intros y _; apply pdf_continuity).
  assert (Hx : x - 1 <= x <= x + 1) by lra.
  pose proof (RiemannInt_P28 h C0 Hx) as HP.
  apply (derivable_pt_lim_locally_ext
           (fct_cte (area (x - 1)) + primitive h (FTC_P1 h C0))%F
           area x (x - 1) (x + 1)).
  - lra.
  - intros z Hz. unfold plus_fct, fct_cte, primitive.
    destruct (Rle_dec (x - 1) z) as [r | n]; [ | lra].
    destruct (Rle_dec z (x + 1)) as [r0 | n0]; [ | lra].
    rewrite <- (area_chasles (x - 1) z (FTC_P1 h C0 r r0)). ring.
  - replace (pdf x) with (0 + pdf x) by ring.
    apply derivable_pt_lim_plus; [apply derivable_pt_lim_const | exact HP].
Qed.

(** Monotonicity from the sign of the derivative (mean value theorem). *)
Lemma deriv_pos_incr (f f' : R -> R) (a b : R) :
  a < b ->
  (forall c, a <= c <= b -> derivable_pt_lim f c (f' c)) ->
  (forall c, a < c < b -> 0 < f' c) ->
  f a < f b.
Proof.
  intros Hab Hd Hpos.
  destruct (MVT_cor2 f f' a b Hab Hd) as (c & Hc & Hin).
  specialize (Hpos c Hin).
  assert (0 < f' c * (b - a)) by (apply Rmult_lt_0_compat; lra). lra.
Qed.

Lemma deriv_nonneg_incr (f f' : R -> R) (a b : R) :
  a <= b ->
  (forall c, a <= c <= b -> derivable_pt_lim f c (f' c)) ->
  (forall c, a < c < b -> 0 <= f' c) ->
  f a <= f b.
Proof.
  intros Hab Hd Hpos.
  destruct Hab as [Hab | ->]; [ | lra].
  destruct (MVT_cor2 f f' a b Hab Hd) as (c & Hc & Hin).
  specialize (Hpos c Hin).
  assert (0 <= f' c * (b - a)) by (apply Rmult_le_pos; lra). lra.
Qed.

Lemma area_incr a b : a < b -> area a < area b.
Proof.
  intros Hab. apply (deriv_pos_incr area pdf); auto.
  - intros; apply area_deriv.
  - intros; apply pdf_pos.
Qed.

(** For [x <= z <= 0]: [-z] times the mass of [[x, z]] is at most
    [pdf z - pdf x], because [-t * pdf t] is the derivative of [pdf]. *)
Lemma tail_bound x z : x <= z -> z <= 0 ->
  - z * (area z - area x) <= pdf z - pdf x.
Proof.
  intros Hxz Hz.
  pose (g := fun t => - z * (area z - area t) - (pdf z - pdf t)).
  assert (H : g x <= g z).
  { apply (deriv_nonneg_incr g (fun t => (z - t) * pdf t)); auto.
    - intros c _. unfold g.
      replace ((z - c) * pdf c)
        with (- z * (0 - pdf c) - (0 - (- c * pdf c))) by ring.
      apply (derivable_pt_lim_minus
               (fun t => - z * (area z - area t)) (fun t => pdf z - pdf t)).
      + apply (derivable_pt_lim_scal (fun t => area z - area t)).
        apply (derivable_pt_lim_minus (fct_cte (area z)) area);
          [apply derivable_pt_lim_const | apply area_deriv].
      + apply (derivable_pt_lim_minus (fct_cte (pdf z)) pdf);
          [apply derivable_pt_lim_const | apply pdf_deriv].
    - intros c Hc. apply Rmult_le_pos; [lra | left; apply pdf_pos]. }
  unfold g in H. lra.
Qed.

(** The values [- area x]: the masses of the intervals [[x, 0]], signed.
    Their least upper bound is the mass of the half line below [0]. *)
Definition neg_areas (y : R) : Prop := exists x, y = - area x.

Lemma area_lower_bound x : area (-1) - pdf (-1) <= area x.
Proof.
  destruct (Rle_dec x (-1)) as [Hx | Hx].
  - pose proof (tail_bound x (-1) Hx ltac:(lra)) as H.
    pose proof (pdf_pos x). pose proof (pdf_pos (-1)). lra.
  - pose proof (area_incr (-1) x ltac:(lra)). pose proof (pdf_pos (-1)). lra.
Qed.

Lemma neg_areas_bound : bound neg_areas.
Proof.
  exists (pdf (-1) - area (-1)). intros y [x ->].
  pose proof (area_lower_bound x). lra.
Qed.

Lemma neg_areas_inhabited : exists y, neg_areas y.
Proof. exists (- area 0), 0. reflexivity. Qed.

Definition left_tail : R :=
  proj1_sig (completeness neg_areas neg_areas_bound neg_areas_inhabited).

(** Cumulative distribution function: the mass of the half line below [z]. *)
Definition cdf (z : R) : R := left_tail + area z.

(** Plain-space Expected Improvement, the formula of the specification:
    [(eta - m - par*s) * Phi(z) + s * phi(z)] with [z = (eta - m)/s - par]. *)
Definition EI (eta m par s : R) : R :=
  let z := (eta - m) / s - par in
  (eta - m - par * s) * cdf z + s * pdf z.

(** Expected improvement of a standard normal variable over threshold [z]. *)
Definition ei_std (z : R) : R := z * cdf z + pdf z.

End Gauss.

(** ** NumPy: elementwise functions and arrays *)

Module np.

(** [np.log], [np.exp], [np.sqrt] on one value.  Out of the domain NumPy
    warns and returns [nan] or an infinity. *)
Definition log (a : float64) : float64 :=
  match a with
  | Fin x => match Rcmp x 0 with
             | Gt => Fin (ln x)
             | Eq => NInf
             | Lt => NaN
             end
  | NZero => NInf
  | PInf => PInf
  | NInf | NaN => NaN
  end.

Definition exp (a : float64) : float64 :=
  match a with
  | Fin x => Fin (Rtrigo_def.exp x)
  | NZero => Fin 1
  | PInf => PInf
  | NInf => Fin 0
  | NaN => NaN
  end.

(** [np.sqrt(-0.0)] is [-0.0]. *)
Definition sqrt (a : float64) : float64 :=
  match a with
  | Fin x => if Rltb x 0 then NaN else Fin (R_sqrt.sqrt x)
  | NZero => NZero
  | PInf => PInf
  | NInf | NaN => NaN
  end.

(** A two-dimensional array, as the list of its rows. *)
Definition matrix : Type := list (list float64).

(** [X.shape[1]] of a matrix with at least one row. *)
Definition ncols {A : Type} (X : list (list A)) : nat := List.length (hd [] X).

(** What a model's [predict] can return: a vector, one entry per row of
    [X] (RoBO's own models), or a two-dimensional array (a raw GP library). *)
Inductive ndarray (A : Type) : Type :=
| Arr1 (l : list A)
| Arr2 (l : list (list A)).
Arguments Arr1 {A} l.
Arguments Arr2 {A} l.

Definition ndim {A : Type} (a : ndarray A) : nat :=
  match a with Arr1 _ => 1 | Arr2 _ => 2 end.

Definition size {A : Type} (a : ndarray A) : nat :=
  match a with
  | Arr1 l => List.length l
  | Arr2 l => List.length (concat l)
  end.

Definition map {A B : Type} (f : A -> B) (a : ndarray A) : ndarray B :=
  match a with
  | Arr1 l => Arr1 (List.map f l)
  | Arr2 l => Arr2 (List.map (List.map f) l)
  end.

(** Elementwise operation on two arrays of one shape. *)
Definition map2 {A B C : Type} (f : A -> B -> C)
    (a : ndarray A) (b : ndarray B) : ndarray C :=
  let zip l1 l2 := List.map (fun p => f (fst p) (snd p)) (combine l1 l2) in
  match a, b with
  | Arr1 l1, Arr1 l2 => Arr1 (zip l1 l2)
  | Arr2 l1, Arr2 l2 =>
      Arr2 (List.map (fun p => zip (fst p) (snd p)) (combine l1 l2))
  | Arr1 l1, Arr2 _ => Arr1 []
  | Arr2 l1, Arr1 _ => Arr2 []
  end.

(** [a[i]]: the elements of the [i]-th entry along the first axis, [None]
    where Python raises [IndexError]. *)
Definition getitem {A : Type} (a : ndarray A) (i : nat) : option (list A) :=
  match a with
  | Arr1 l => option_map (fun x => [x]) (nth_error l i)
  | Arr2 l => nth_error l i
  end.

(** An entry used as a number (in [if], [max], an assignment to one cell):
    it must hold exactly one element. *)
Definition item {A : Type} (e : list A) : option A :=
  match e with
  | [x] => Some x
  | _ => None
  end.

(** [a[i] = row] on a list of rows; the index is in range at every use. *)
Fixpoint setitem {A : Type} (a : list A) (i : nat) (x : A) : list A :=
  match a, i with
  | [], _ => []
  | _ :: t, O => x :: t
  | h :: t, S j => h :: setitem t j x
  end.

(** [np.zeros((n, 1))] *)
Definition zeros_col (n : nat) : matrix := repeat [Fin 0] n.

(** [np.zeros((1, n))] *)
Definition zeros_row (n : nat) : matrix := [repeat (Fin 0) n].

(** [np.any(X < bound)] and [np.any(X > bound)] for a batch [X] (rows of [n]
    coordinates) against one row of [n] bounds, broadcast over the rows. *)
Definition any_cmp (cmp : float64 -> float64 -> bool)
    (X : matrix) (bound : list float64) : bool :=
  existsb (fun row => existsb (fun p => cmp (fst p) (snd p)) (combine row bound)) X.

Definition as_matrix {A : Type} (a : ndarray A) : list (list A) :=
  match a with
  | Arr1 l => [l]
  | Arr2 l => l
  end.

Definition transpose (m : matrix) : matrix :=
  List.map (fun j => List.map (fun r => nth j r NaN) m) (seq 0 (ncols m)).

End np.
Import np(matrix, ndarray, Arr1, Arr2).

(** ** scipy.stats.norm on binary64 values *)

(** The density and the distribution function, exact on finite values (no
    underflow to zero in the tails), with scipy's values at the zeros, the
    infinities and [nan]. *)
Module norm.

Definition pdf (z : float64) : float64 :=
  match z with
  | Fin x => Fin (Gauss.pdf x)
  | NZero => Fin (Gauss.pdf 0)
  | PInf | NInf => Fin 0
  | NaN => NaN
  end.

Definition cdf (z : float64) : float64 :=
  match z with
  | Fin x => Fin (Gauss.cdf x)
  | NZero => Fin (Gauss.cdf 0)
  | PInf => Fin 1
  | NInf => Fin 0
  | NaN => NaN
  end.

Definition logpdf (z : float64) : float64 :=
  match z with
  | Fin x => Fin (Gauss.logpdf x)
  | NZero => Fin (Gauss.logpdf 0)
  | PInf | NInf => NInf
  | NaN => NaN
  end.

Definition logcdf (z : float64) : float64 :=
  match z with
  | Fin x => Fin (ln (Gauss.cdf x))
  | NZero => Fin (ln (Gauss.cdf 0))
  | PInf => Fin 0
  | NInf => NInf
  | NaN => NaN
  end.

End norm.

(** ** The model collaborator, errors, and programs over the model *)

Module robo.

(** Modelled from the spec: the class [BayesianOptimizationError] of the
    package [robo], which the two files import.  Only the two codes they
    raise are needed: [NO_DERIVATIVE] (the spec's UnsupportedOperation) and
    [SINGLE_INPUT_ONLY] (the spec's InvalidBatchSize). *)
Inductive error_code : Type :=
| NO_DERIVATIVE
| SINGLE_INPUT_ONLY.

Inductive exn : Type :=
| BayesianOptimizationError (code : error_code) (msg : string)
| UnboundLocalError (name : string)
| IndexError
| ValueError.

(** [predict] returns the means and the variances as two arrays of one
    shape; they are carried as one array of pairs [(m, v)]. *)
Definition stats : Type := ndarray (float64 * float64).

(** [predictive_gradients] returns [dm/dx] of shape [(N, D, 1)] and
    [dv/dx] of shape [(N, D)]. *)
Definition gradients : Type := (list matrix * matrix)%type.

(** Instance features [Z]: [None] or an array. *)
Definition features : Type := option matrix.

(** A call of an evaluator: it returns, raises, or asks the model. *)
Inductive prog (A : Type) : Type :=
| Ret (a : A)
| Raise (e : exn)
| Predict (X : matrix) (Z : features) (k : stats -> prog A)
| GetCurrentBest (k : float64 -> prog A)
| PredictiveGradients (X : matrix) (k : gradients -> prog A).
Arguments Ret {A} a.
Arguments Raise {A} e.
Arguments Predict {A} X Z k.
Arguments GetCurrentBest {A} k.
Arguments PredictiveGradients {A} X k.

Fixpoint bind {A B : Type} (p : prog A) (f : A -> prog B) : prog B :=
  match p with
  | Ret a => f a
  | Raise e => Raise e
  | Predict X Z k => Predict X Z (fun r => bind (k r) f)
  | GetCurrentBest k => GetCurrentBest (fun r => bind (k r) f)
  | PredictiveGradients X k => PredictiveGradients X (fun r => bind (k r) f)
  end.

Definition predict (X : matrix) (Z : features) : prog stats := Predict X Z Ret.
Definition getCurrentBest : prog float64 := GetCurrentBest Ret.
Definition predictive_gradients (X : matrix) : prog gradients :=
  PredictiveGradients X Ret.

(** A model, and the run of a program against it with the log of the
    methods it called. *)
Record Model : Type := {
  model_predict : matrix -> features -> stats;
  model_getCurrentBest : float64;
  model_predictive_gradients : matrix -> gradients
}.

Inductive call : Type :=
| Called_predict (X : matrix) (Z : features)
| Called_getCurrentBest
| Called_predictive_gradients (X : matrix).

Inductive outcome (A : Type) : Type :=
| Returned (a : A)
| Raised (e : exn).
Arguments Returned {A} a.
Arguments Raised {A} e.

Fixpoint run {A : Type} (mdl : Model) (p : prog A) : list call * outcome A :=
  match p with
  | Ret a => ([], Returned a)
  | Raise e => ([], Raised e)
  | Predict X Z k =>
      let (log, r) := run mdl (k (model_predict mdl X Z)) in
      (Called_predict X Z :: log, r)
  | GetCurrentBest k =>
      let (log, r) := run mdl (k (model_getCurrentBest mdl)) in
      (Called_getCurrentBest :: log, r)
  | PredictiveGradients X k =>
      let (log, r) := run mdl (k (model_predictive_gradients mdl X)) in
      (Called_predictive_gradients X :: log, r)
  end.

(** [option] to program: [None] raises [e]. *)
Definition or_raise {A : Type} (e : exn) (o : option A) : prog A :=
  match o with
  | Some a => Ret a
  | None => Raise e
  end.

End robo.
Import robo.

Declare Scope prog_scope.
Delimit Scope prog_scope with prog.
Notation "x <- c ;; k" := (bind c (fun x => k))
  (at level 61, c at next level, right associativity) : prog_scope.
Open Scope prog_scope.

(** ** LogEI.py *)

Module LogEI.

(** The fields of [self], but for [self.model]: the model is what a call
    is run against. *)
Record t : Type := {
  par : float64;
  X_lower : list float64;
  X_upper : list float64
}.

(** The guard [np.any(X < self.X_lower) or np.any(X > self.X_upper)]. *)
Definition out_of_bounds (self : t) (X : matrix) : bool :=
  np.any_cmp flt X (X_lower self) || np.any_cmp fgt X (X_upper self).

(** The body of the loop (lines 76 to 109): the value stored in
    [log_ei[i]], from [mu = m[i]], [sigma = s[i]] and [z[i]]. *)
Definition log_ei_at (self : t) (eta mu sigma zi : float64) : float64 :=
  let par_s := fmul (par self) sigma in
  if feq (py_abs (fsub (fsub eta mu) par_s)) (Fin 0) then
    if fgt sigma (Fin 0) then fadd (np.log sigma) (norm.logpdf zi)
    else fneg PInf
  else if feq sigma (Fin 0) then
    if flt mu (fsub eta par_s) then np.log (fsub (fsub eta mu) par_s)
    else fneg PInf
  else
    let b := fadd (np.log sigma) (norm.logpdf zi) in
    if fgt (fsub eta par_s) mu then
      let a := fadd (np.log (fsub (fsub eta mu) par_s)) (norm.logcdf zi) in
      fadd (py_max a b)
           (np.log (fadd (Fin 1) (np.exp (fneg (py_abs (fsub b a))))))
    else
      let a := fadd (np.log (fadd (fsub mu eta) par_s)) (norm.logcdf zi) in
      if fge a b then fneg PInf
      else fadd b (np.log (fsub (Fin 1) (np.exp (fsub a b)))).

(** [for i in range(0, m.size)], with [i] the current index, [n] the number
    of iterations left and [log_ei] the array filled so far. *)
Fixpoint loop (self : t) (eta : float64) (m s z : ndarray float64)
    (i n : nat) (log_ei : matrix) : prog matrix :=
  match n with
  | O => Ret log_ei
  | S n' =>
      mu <- or_raise IndexError (np.getitem m i) ;;
      sigma <- or_raise IndexError (np.getitem s i) ;;
      zi <- or_raise IndexError (np.getitem z i) ;;
      mu <- or_raise ValueError (np.item mu) ;;
      sigma <- or_raise ValueError (np.item sigma) ;;
      zi <- or_raise ValueError (np.item zi) ;;
      loop self eta m s z (S i) n'
           (np.setitem log_ei i [log_ei_at self eta mu sigma zi])
  end.

Definition __call__ (self : t) (X : matrix) (Z : features)
    (derivative : bool) : prog matrix :=
  if derivative then
    Raise (BayesianOptimizationError NO_DERIVATIVE
             "LogEI does not support derivative calculation until now")
  else if out_of_bounds self X then
    Ret [[fneg (Fin float_max)]]
  else
    mv <- predict X Z ;;
    let m := np.map fst mv in
    let v := np.map snd mv in
    eta <- getCurrentBest ;;
    let s := np.map np.sqrt v in
    let z := np.map2 (fun mu sigma => fsub (fdiv (fsub eta mu) sigma) (par self))
                     m s in
    let log_ei := np.zeros_col (np.size m) in
    loop self eta m s z 0 (np.size m) log_ei.

End LogEI.

(** ** PI.py *)

Module PI.

Record t : Type := {
  par : float64;
  X_lower : list float64;
  X_upper : list float64
}.

(** What a call returns: the score, or the pair of the score and the
    gradient when [derivative] is set. *)
Inductive value : Type :=
| Score (f : matrix)
| ScoreGrad (f : matrix) (df : list matrix).

Definition out_of_bounds (self : t) (X : matrix) : bool :=
  np.any_cmp flt X (X_lower self) || np.any_cmp fgt X (X_upper self).

Fixpoint sequence {A : Type} (l : list (prog A)) : prog (list A) :=
  match l with
  | [] => Ret []
  | p :: ps => x <- p ;; xs <- sequence ps ;; Ret (x :: xs)
  end.

(** NumPy broadcasting along one axis: equal lengths pair up, a length of
    one is repeated, anything else is a [ValueError]. *)
Definition broadcast {A B C : Type} (f : A -> B -> prog C)
    (la : list A) (lb : list B) : prog (list C) :=
  if (List.length la =? List.length lb)%nat then
    sequence (List.map (fun p => f (fst p) (snd p)) (combine la lb))
  else match la, lb with
       | [a], _ => sequence (List.map (f a) lb)
       | _, [b] => sequence (List.map (fun a => f a b) la)
       | _, _ => Raise ValueError
       end.

Definition broadcast2 (op : float64 -> float64 -> float64)
    (a b : matrix) : prog matrix :=
  broadcast (broadcast (fun x y => Ret (op x y))) a b.

(** Lines 80 to 84: the gradient [df] from the model's gradients. *)
Definition gradient (g : gradients) (s z : ndarray float64) : prog matrix :=
  let (dmdx, ds2dx) := g in
  dmdx <- or_raise IndexError (nth_error dmdx 0) ;;
  ds2dx <- or_raise IndexError (nth_error ds2dx 0) ;;
  let ds2dx := List.map (fun x => [x]) ds2dx in
  dsdx <- broadcast2 fdiv ds2dx (np.as_matrix (np.map (fmul (Fin 2)) s)) ;;
  dsdx_z <- broadcast2 fmul dsdx (np.as_matrix z) ;;
  sum <- broadcast2 fadd dmdx dsdx_z ;;
  let coef := np.map2 (fun zi si => fneg (fdiv (fneg (norm.pdf zi)) si)) z s in
  prod <- broadcast2 fmul (np.as_matrix coef) sum ;;
  Ret (np.transpose prod).

Definition __call__ (self : t) (X : matrix) (Z : features)
    (derivative : bool) : prog value :=
  if (1 <? List.length X)%nat then
    Raise (BayesianOptimizationError SINGLE_INPUT_ONLY
             "PI is only for single x inputs")
  else if out_of_bounds self X then
    if derivative then
      let f := Fin 0 in
      let df := np.zeros_row (np.ncols X) in
      Ret (ScoreGrad [[f]] [df])
    else
      Ret (Score [[Fin 0]])
  else
    mv <- predict X Z ;;
    let m := np.map fst mv in
    let v := np.map snd mv in
    eta <- getCurrentBest ;;
    let s := np.map np.sqrt v in
    let z := np.map2 (fun mu sigma => fdiv (fsub (fsub eta mu) (par self)) sigma)
                     m s in
    let f := np.map norm.cdf z in
    (* [return_f] is bound only when [f] has one dimension. *)
    let return_f := match f with
                    | Arr1 l => Some [l]
                    | Arr2 _ => None
                    end in
    if derivative then
      g <- predictive_gradients X ;;
      df <- gradient g s z ;;
      (* [df] has two dimensions, never three. *)
      let return_df := [df] in
      return_f <- or_raise (UnboundLocalError "return_f") return_f ;;
      Ret (ScoreGrad return_f return_df)
    else
      return_f <- or_raise (UnboundLocalError "return_f") return_f ;;
      Ret (Score return_f).

End PI.

(** ** Vocabulary of the properties *)

(** Some coordinate of some row of [X] is strictly below its lower bound or
    strictly above its upper bound. *)
Definition outside (lower upper : list float64) (X : matrix) : Prop :=
  exists row j x,
    In row X /\ nth_error row j = Some x /\
    ((exists l, nth_error lower j = Some l /\ flt x l = true) \/
     (exists u, nth_error upper j = Some u /\ fgt x u = true)).

(** The value LogEI computes for one candidate with mean [fst mv] and
    variance [snd mv]. *)
Definition LogEI_cell (self : LogEI.t) (eta : float64)
    (mv : float64 * float64) : float64 :=
  let sigma := np.sqrt (snd mv) in
  LogEI.log_ei_at self eta (fst mv) sigma
    (fsub (fdiv (fsub eta (fst mv)) sigma) (LogEI.par self)).

Definition PI_cell (self : PI.t) (eta : float64)
    (mv : float64 * float64) : float64 :=
  norm.cdf (fdiv (fsub (fsub eta (fst mv)) (PI.par self)) (np.sqrt (snd mv))).

(** The model predicts mean [m] and variance [v] for the single candidate
    [X], with incumbent [eta]. *)
Definition predicts (mdl : Model) (X : matrix) (Z : features) (m v eta : R) : Prop :=
  model_predict mdl X Z = Arr1 [(Fin m, Fin v)] /\
  model_getCurrentBest mdl = Fin eta.

Definition LogEI_returns (self : LogEI.t) (mdl : Model) (X : matrix)
    (Z : features) (y : float64) : Prop :=
  snd (run mdl (LogEI.__call__ self X Z false)) = Returned [[y]].

Definition PI_returns (self : PI.t) (mdl : Model) (X : matrix)
    (Z : features) (f : float64) : Prop :=
  snd (run mdl (PI.__call__ self X Z false)) = Returned (PI.Score [[f]]).

(** ** Example configurations, batches and models *)

(** The search box [[0, 1]] in one dimension, with the default margins. *)
Definition unit_box_LogEI : LogEI.t :=
  {| LogEI.par := Fin (1 / 100); LogEI.X_lower := [Fin 0]; LogEI.X_upper := [Fin 1] |}.

Definition unit_box_PI : PI.t :=
  {| PI.par := Fin (1 / 10); PI.X_lower := [Fin 0]; PI.X_upper := [Fin 1] |}.

Definition unit_box_PI_001 : PI.t :=
  {| PI.par := Fin (1 / 100); PI.X_lower := [Fin 0]; PI.X_upper := [Fin 1] |}.

Definition wide_margin_LogEI : LogEI.t :=
  {| LogEI.par := Fin 10; LogEI.X_lower := [Fin 0]; LogEI.X_upper := [Fin 1] |}.

Definition no_margin_LogEI : LogEI.t :=
  {| LogEI.par := Fin 0; LogEI.X_lower := [Fin 0]; LogEI.X_upper := [Fin 1] |}.

(** One candidate inside the box, one outside, and batches that mix them. *)
Definition x_inside : matrix := [[Fin (1 / 2)]].
Definition x_outside : matrix := [[Fin 2]].
Definition batch_of_two : matrix := [[Fin 2]; [Fin (1 / 2)]].
Definition batch_of_three : matrix := [[Fin (1 / 2)]; [Fin 2]; [Fin (1 / 4)]].

Definition batch_inside : matrix := [[Fin (1 / 2)]; [Fin (1 / 4)]].

(** A model that predicts the same statistics [l] and the same incumbent
    [eta] at every point (its gradients are not used). *)
Definition constant_model (l : list (float64 * float64)) (eta : float64) : Model :=
  {| model_predict := fun _ _ => Arr1 l;
     model_getCurrentBest := eta;
     model_predictive_gradients := fun _ => ([], []) |}.

Definition matrix_model : Model :=
  {| model_predict := fun _ _ => Arr2 [[(Fin 0, Fin 1)]];
     model_getCurrentBest := Fin 0;
     model_predictive_gradients := fun _ => ([[[Fin 1]]], [[Fin 1]]) |}.

(** ** Vocabulary and examples of the further properties *)

(** Every coordinate of every row is [nan] or lies between its two bounds,
    the bounds included. *)
Definition inside (lower upper : list float64) (X : matrix) : Prop :=
  forall row j x l u,
    In row X -> nth_error row j = Some x ->
    nth_error lower j = Some l -> nth_error upper j = Some u ->
    x = NaN \/ (fle l x = true /\ fle x u = true).

(** The two corners of the box and a [nan] candidate. *)
Definition corners_and_nan : matrix := [[Fin 0]; [Fin 1]; [NaN]].

(** A program that asks the model nothing. *)
Definition asks_nothing {A : Type} (p : prog A) : Prop :=
  match p with
  | Ret _ | Raise _ => True
  | _ => False
  end.

Definition column_model (l : list (float64 * float64)) (eta : float64) : Model :=
  {| model_predict := fun _ _ => Arr2 (List.map (fun mv => [mv]) l);
     model_getCurrentBest := eta;
     model_predictive_gradients := fun _ => ([], []) |}.

Definition wide_model : Model :=
  {| model_predict := fun _ _ => Arr2 [[(Fin 0, Fin 1); (Fin 1, Fin 1)]];
     model_getCurrentBest := Fin 0;
     model_predictive_gradients := fun _ => ([], []) |}.

(** One coordinate of the gradient: [-(-pdf(z)/s) * (dm + dv/(2*s) * z)]. *)
Definition PI_gradient_entry (s z : float64) (d : float64 * float64) : float64 :=
  fmul (fneg (fdiv (fneg (norm.pdf z)) s))
       (fadd (fst d) (fmul (fdiv (snd d) (fmul (Fin 2) s)) z)).

(** A model of a two-dimensional search space with known gradients. *)
Definition plane_model : Model :=
  {| model_predict := fun _ _ => Arr1 [(Fin 0, Fin 1)];
     model_getCurrentBest := Fin 0;
     model_predictive_gradients :=
       fun _ => ([[[Fin 1]; [Fin 2]]], [[Fin 0; Fin 0]]) |}.

Definition unit_square_PI : PI.t :=
  {| PI.par := Fin (1 / 10); PI.X_lower := [Fin 0; Fin 0];
     PI.X_upper := [Fin 1; Fin 1] |}.

Definition x_in_square : matrix := [[Fin (1 / 2); Fin (1 / 4)]].

Definition flat_plane_model : Model :=
  {| model_predict := fun _ _ => Arr1 [(Fin 0, Fin 0)];
     model_getCurrentBest := Fin 1;
     model_predictive_gradients :=
       fun _ => ([[[Fin 1]; [Fin 2]]], [[Fin 0; Fin 0]]) |}.

(** The score of PI as a function of the location [t], for a model whose
    mean and variance at [t] are [mfun t] and [vfun t]. *)
Definition PI_score (mfun vfun : R -> R) (e q : R) (t : R) : R :=
  Gauss.cdf ((e - mfun t - q) / sqrt (vfun t)).

(** A model of the line whose mean is the location itself, with unit
    variance. *)
Definition line_model : Model :=
  {| model_predict :=
       fun X _ => match X with
                  | [[Fin t]] => Arr1 [(Fin t, Fin 1)]
                  | _ => Arr1 []
                  end;
     model_getCurrentBest := Fin 0;
     model_predictive_gradients := fun _ => ([[[Fin 1]]], [[Fin 0]]) |}.

(** ** Facts about comparisons and bounds *)

Lemma Rltb_true x y : x < y -> Rltb x y = true.
Proof. intros H. unfold Rltb. destruct (Rlt_dec x y); [reflexivity | contradiction]. Qed.

Lemma Rltb_false x y : ~ x < y -> Rltb x y = false.
Proof. intros H. unfold Rltb. destruct (Rlt_dec x y); [contradiction | reflexivity]. Qed.

Lemma Reqb_true x y : x = y -> Reqb x y = true.
Proof. intros H. unfold Reqb. destruct (Req_dec_T x y); [reflexivity | contradiction]. Qed.

Lemma Reqb_false x y : x <> y -> Reqb x y = false.
Proof. intros H. unfold Reqb. destruct (Req_dec_T x y); [contradiction | reflexivity]. Qed.

Lemma Rcmp_Lt x y : x < y -> Rcmp x y = Lt.
Proof. intros H. unfold Rcmp. destruct (Rlt_dec x y); [reflexivity | contradiction]. Qed.

Lemma Rcmp_Gt x y : y < x -> Rcmp x y = Gt.
Proof.
  intros H. unfold Rcmp.
  destruct (Rlt_dec x y); [lra | ]. destruct (Rlt_dec y x); [reflexivity | contradiction].
Qed.

Lemma Rcmp_Eq x y : x = y -> Rcmp x y = Eq.
Proof.
  intros H. unfold Rcmp.
  destruct (Rlt_dec x y); [lra | ]. destruct (Rlt_dec y x); [lra | reflexivity].
Qed.

(** Evaluate the comparisons of reals whose outcome [lra] can tell. *)
Ltac Rdecide :=
  repeat first
    [ rewrite Rltb_true by lra | rewrite Rltb_false by lra
    | rewrite Reqb_true by lra | rewrite Reqb_false by lra
    | rewrite Rcmp_Lt by lra | rewrite Rcmp_Gt by lra | rewrite Rcmp_Eq by lra ].

(** Case analysis on the comparisons of reals that the goal holds. *)
Ltac Rcases :=
  unfold scale_inf, Rcmp, Rltb, Reqb;
  repeat match goal with
         | |- context [Rlt_dec ?a ?b] => destruct (Rlt_dec a b)
         | |- context [Req_dec_T ?a ?b] => destruct (Req_dec_T a b)
         end;
  cbn [andb orb negb].

(** Evaluate the operations on binary64 values given by numerals. *)
Ltac Fdecide :=
  repeat first
    [ progress cbn [fneg fabs fadd fsub fmul fdiv feq flt fle fgt fge py_abs
                    py_max scale_inf andb orb np.log np.exp np.sqrt
                    norm.pdf norm.cdf norm.logpdf norm.logcdf]
    | progress Rdecide ].

(** Where no negative zero can arise the operations are those of the
    reals. *)
Lemma float_max_pos : 0 < float_max.
Proof.
  unfold float_max. apply Rmult_lt_0_compat; [ | apply pow_lt; lra].
  assert (H : 1 <= 2 ^ 52) by (apply pow_R1_Rle; lra).
  assert (H' : / 2 ^ 52 <= 1).
  { rewrite <- Rinv_1. apply Rinv_le_contravar; lra. }
  lra.
Qed.

Lemma fneg_Fin (x : R) : x <> 0 -> fneg (Fin x) = Fin (- x).
Proof. intros H. unfold fneg. now rewrite Reqb_false. Qed.

Lemma fsub_Fin (x y : R) : fsub (Fin x) (Fin y) = Fin (x + - y).
Proof.
  unfold fsub, fneg, Reqb. destruct (Req_dec_T y 0) as [-> | H]; cbn [fadd].
  - f_equal. ring.
  - reflexivity.
Qed.

Lemma fmul_Fin (x y : R) :
  (x = 0 -> 0 <= y) -> (y = 0 -> 0 <= x) -> fmul (Fin x) (Fin y) = Fin (x * y).
Proof.
  intros Hx Hy. unfold fmul, Reqb, Rltb.
  destruct (Req_dec_T x 0) as [H0 | H0], (Req_dec_T y 0) as [H1 | H1],
           (Rlt_dec y 0), (Rlt_dec x 0); cbn [andb orb];
    try reflexivity; try (specialize (Hx H0)); try (specialize (Hy H1)); lra.
Qed.

Lemma fdiv_Fin (x y : R) :
  y <> 0 -> (x = 0 -> 0 < y) -> fdiv (Fin x) (Fin y) = Fin (x / y).
Proof.
  intros Hy Hx. unfold fdiv. rewrite (Reqb_false y 0 Hy). unfold Reqb, Rltb.
  destruct (Req_dec_T x 0) as [H0 | H0], (Rlt_dec y 0); cbn [andb];
    try reflexivity. specialize (Hx H0). lra.
Qed.

Lemma fadd_fmul_Fin (a b c : R) :
  fadd (Fin a) (fmul (Fin b) (Fin c)) = Fin (a + b * c).
Proof.
  cbn [fmul]. Rcases; cbn [fadd]; f_equal; subst; try ring; lra.
Qed.

Lemma existsb_combine_nth (cmp : float64 -> float64 -> bool) row bound :
  existsb (fun p => cmp (fst p) (snd p)) (combine row bound) = true <->
  exists j x b, nth_error row j = Some x /\ nth_error bound j = Some b /\
                cmp x b = true.
Proof.
  revert bound. induction row as [ | x row IH]; intros [ | b bound]; simpl.
  - split; [discriminate | intros (j & ? & ? & H & _); destruct j; discriminate].
  - split; [discriminate | intros (j & ? & ? & H & _); destruct j; discriminate].
  - split; [discriminate | intros (j & ? & ? & _ & H & _); destruct j; discriminate].
  - rewrite orb_true_iff, IH. split.
    + intros [H | (j & x' & b' & Hx & Hb & H)].
      * exists O, x, b. repeat split; assumption.
      * exists (S j), x', b'. repeat split; assumption.
    + intros (j & x' & b' & Hx & Hb & H). destruct j as [ | j]; simpl in *.
      * left. congruence.
      * right. exists j, x', b'. repeat split; assumption.
Qed.

Lemma any_cmp_spec cmp X bound :
  np.any_cmp cmp X bound = true <->
  exists row j x b, In row X /\ nth_error row j = Some x /\
                    nth_error bound j = Some b /\ cmp x b = true.
Proof.
  unfold np.any_cmp. rewrite existsb_exists. split.
  - intros (row & Hin & H). apply existsb_combine_nth in H.
    destruct H as (j & x & b & ?). exists row, j, x, b. tauto.
  - intros (row & j & x & b & Hin & H). exists row. split; [exact Hin | ].
    apply existsb_combine_nth. eauto.
Qed.

Lemma LogEI_out_of_bounds_spec self X :
  LogEI.out_of_bounds self X = true <->
  outside (LogEI.X_lower self) (LogEI.X_upper self) X.
Proof.
  unfold LogEI.out_of_bounds, outside.
  rewrite orb_true_iff, !any_cmp_spec. split.
  - intros [(row & j & x & b & ? & ? & ? & ?) | (row & j & x & b & ? & ? & ? & ?)];
      exists row, j, x; eauto 8.
  - intros (row & j & x & ? & ? & [(l & ? & ?) | (u & ? & ?)]); [left | right];
      eauto 8.
Qed.

Lemma PI_out_of_bounds_spec self X :
  PI.out_of_bounds self X = true <->
  outside (PI.X_lower self) (PI.X_upper self) X.
Proof.
  unfold PI.out_of_bounds, outside.
  rewrite orb_true_iff, !any_cmp_spec. split.
  - intros [(row & j & x & b & ? & ? & ? & ?) | (row & j & x & b & ? & ? & ? & ?)];
      exists row, j, x; eauto 8.
  - intros (row & j & x & ? & ? & [(l & ? & ?) | (u & ? & ?)]); [left | right];
      eauto 8.
Qed.

(** ** The examples are in or out of bounds as named *)

Lemma x_inside_LogEI : LogEI.out_of_bounds unit_box_LogEI x_inside = false.
Proof. unfold LogEI.out_of_bounds, np.any_cmp. simpl. unfold fgt, flt. Rdecide. reflexivity. Qed.

Lemma x_inside_PI : PI.out_of_bounds unit_box_PI x_inside = false.
Proof. unfold PI.out_of_bounds, np.any_cmp. simpl. unfold fgt, flt. Rdecide. reflexivity. Qed.

Lemma x_outside_outside : outside [Fin 0] [Fin 1] x_outside.
Proof.
  exists [Fin 2], O, (Fin 2).
  split; [simpl; tauto | ]. split; [reflexivity | ].
  right. exists (Fin 1). split; [reflexivity | ]. unfold fgt, flt. Rdecide. reflexivity.
Qed.

Lemma batch_of_two_outside : outside [Fin 0] [Fin 1] batch_of_two.
Proof.
  exists [Fin 2], O, (Fin 2).
  split; [simpl; tauto | ]. split; [reflexivity | ].
  right. exists (Fin 1). split; [reflexivity | ]. unfold fgt, flt. Rdecide. reflexivity.
Qed.

Lemma batch_of_three_outside : outside [Fin 0] [Fin 1] batch_of_three.
Proof.
  exists [Fin 2], O, (Fin 2).
  split; [simpl; tauto | ]. split; [reflexivity | ].
  right. exists (Fin 1). split; [reflexivity | ]. unfold fgt, flt. Rdecide. reflexivity.
Qed.

(** ** Guards: derivative, batch size, bounds *)

(** C3: a call of LogEI with [derivative=True] is the program that raises
    [BayesianOptimizationError.NO_DERIVATIVE] at once, whatever [X], [Z] and
    the bounds are: no bounds check can change it and no model method is
    called, for every model. *)
Theorem LogEI_derivative_raises (self : LogEI.t) (X : matrix) (Z : features) :
  LogEI.__call__ self X Z true =
    Raise (BayesianOptimizationError NO_DERIVATIVE
             "LogEI does not support derivative calculation until now")
  /\ forall mdl : Model,
       run mdl (LogEI.__call__ self X Z true) =
         ([], Raised (BayesianOptimizationError NO_DERIVATIVE
                        "LogEI does not support derivative calculation until now")).
Proof. split; reflexivity. Qed.

(** C4: a call of PI on a batch of more than one row is the program that
    raises [BayesianOptimizationError.SINGLE_INPUT_ONLY] at once, whether or
    not the rows are in bounds and whether or not the derivative is asked
    for; no model method is called. *)
Theorem PI_batch_raises (self : PI.t) (X : matrix) (Z : features)
    (derivative : bool) :
  (1 < List.length X)%nat ->
  PI.__call__ self X Z derivative =
    Raise (BayesianOptimizationError SINGLE_INPUT_ONLY
             "PI is only for single x inputs")
  /\ forall mdl : Model, fst (run mdl (PI.__call__ self X Z derivative)) = [].
Proof.
  intros H. unfold PI.__call__.
  apply Nat.ltb_lt in H. rewrite H. split; reflexivity.
Qed.

Lemma PI_batch_raises_witness :
  (1 < List.length batch_of_two)%nat /\
  PI.__call__ unit_box_PI batch_of_two None true =
    Raise (BayesianOptimizationError SINGLE_INPUT_ONLY
             "PI is only for single x inputs").
Proof.
  assert (H : (1 < List.length batch_of_two)%nat) by (simpl; lia).
  split; [exact H | ].
  exact (proj1 (PI_batch_raises unit_box_PI batch_of_two None true H)).
Defined.

Lemma LogEI_rejects (self : LogEI.t) (X : matrix) (Z : features) :
  outside (LogEI.X_lower self) (LogEI.X_upper self) X ->
  LogEI.__call__ self X Z false = Ret [[Fin (- float_max)]].
Proof.
  intros H. apply LogEI_out_of_bounds_spec in H.
  unfold LogEI.__call__. rewrite H.
  rewrite fneg_Fin by (pose proof float_max_pos; lra). reflexivity.
Qed.

(** C9: when some row of the batch is out of bounds, LogEI (called without
    the derivative) returns the array [[[-max]]], of shape (1, 1), whatever
    the number of rows of the batch. *)
Theorem LogEI_out_of_bounds_shape (self : LogEI.t) (X : matrix) (Z : features) :
  outside (LogEI.X_lower self) (LogEI.X_upper self) X ->
  exists log_ei : matrix,
    LogEI.__call__ self X Z false = Ret log_ei /\
    log_ei = [[Fin (- float_max)]] /\
    List.length log_ei = 1%nat /\ np.ncols log_ei = 1%nat.
Proof.
  intros H. exists [[Fin (- float_max)]].
  split; [apply LogEI_rejects; exact H | repeat split].
Qed.

Lemma LogEI_out_of_bounds_shape_witness :
  List.length batch_of_three = 3%nat /\
  exists log_ei : matrix,
    LogEI.__call__ unit_box_LogEI batch_of_three None false = Ret log_ei /\
    log_ei = [[Fin (- float_max)]] /\
    List.length log_ei = 1%nat /\ np.ncols log_ei = 1%nat.
Proof.
  split; [reflexivity | ].
  exact (LogEI_out_of_bounds_shape unit_box_LogEI batch_of_three None
           batch_of_three_outside).
Defined.

(** C2, as the code has it: when some coordinate of some row is out of
    bounds, LogEI called without the derivative returns [[[-max]]], and PI
    called on a batch of at most one row returns [[[0]]], with the zero
    gradient of shape (1, 1, n) when the derivative is asked for; each of
    these calls is a plain return, so no model method is called. *)
Theorem out_of_bounds_rejected (lself : LogEI.t) (pself : PI.t)
    (X : matrix) (Z : features) :
  (outside (LogEI.X_lower lself) (LogEI.X_upper lself) X ->
   LogEI.__call__ lself X Z false = Ret [[Fin (- float_max)]] /\
   forall mdl, fst (run mdl (LogEI.__call__ lself X Z false)) = [])
  /\
  (outside (PI.X_lower pself) (PI.X_upper pself) X ->
   (List.length X <= 1)%nat ->
   PI.__call__ pself X Z false = Ret (PI.Score [[Fin 0]]) /\
   PI.__call__ pself X Z true =
     Ret (PI.ScoreGrad [[Fin 0]] [[repeat (Fin 0) (np.ncols X)]]) /\
   forall mdl derivative,
     fst (run mdl (PI.__call__ pself X Z derivative)) = []).
Proof.
  split.
  - intros H. rewrite (LogEI_rejects lself X Z H). split; reflexivity.
  - intros H Hlen. apply PI_out_of_bounds_spec in H.
    unfold PI.__call__.
    assert (Hk : (1 <? List.length X)%nat = false) by (apply Nat.ltb_ge; lia).
    rewrite Hk, H. repeat split. intros mdl [ | ]; reflexivity.
Qed.

Lemma out_of_bounds_rejected_witness :
  LogEI.__call__ unit_box_LogEI x_outside None false = Ret [[Fin (- float_max)]]
  /\ PI.__call__ unit_box_PI x_outside None false = Ret (PI.Score [[Fin 0]])
  /\ PI.__call__ unit_box_PI x_outside None true =
       Ret (PI.ScoreGrad [[Fin 0]] [[[Fin 0]]]).
Proof.
  destruct (out_of_bounds_rejected unit_box_LogEI unit_box_PI x_outside None)
    as [HL HP].
  destruct (HL x_outside_outside) as [HL1 _].
  destruct (HP x_outside_outside ltac:(simpl; lia)) as (HP1 & HP2 & _).
  exact (conj HL1 (conj HP1 HP2)).
Defined.

(** C2 fails as stated on a batch of two rows of which one is out of
    bounds: PI does not return zero there, it raises. *)
Lemma PI_out_of_bounds_batch_raises :
  outside (PI.X_lower unit_box_PI) (PI.X_upper unit_box_PI) batch_of_two /\
  PI.__call__ unit_box_PI batch_of_two None false =
    Raise (BayesianOptimizationError SINGLE_INPUT_ONLY
             "PI is only for single x inputs") /\
  PI.__call__ unit_box_PI batch_of_two None false <> Ret (PI.Score [[Fin 0]]).
Proof.
  split; [exact batch_of_two_outside | ].
  split; [reflexivity | discriminate].
Qed.

(** ** LogEI on a vector of predictions *)

Lemma combine_map_same {A B C : Type} (f : A -> B) (g : A -> C) (l : list A) :
  combine (List.map f l) (List.map g l) = List.map (fun x => (f x, g x)) l.
Proof. induction l as [ | x l IH]; simpl; [reflexivity | now rewrite IH]. Qed.

Lemma firstn_setitem {A : Type} (l : list A) (i : nat) (x : A) :
  (i < List.length l)%nat ->
  firstn (S i) (np.setitem l i x) = firstn i l ++ [x].
Proof.
  revert i. induction l as [ | h t IH]; intros i Hi; simpl in Hi; [lia | ].
  destruct i as [ | i]; simpl.
  - reflexivity.
  - f_equal. apply IH. lia.
Qed.

Lemma setitem_length {A : Type} (l : list A) (i : nat) (x : A) :
  List.length (np.setitem l i x) = List.length l.
Proof.
  revert i. induction l as [ | h t IH]; intros [ | i]; simpl; auto.
Qed.

Lemma skipn_nth_error {A : Type} (l : list A) (i : nat) (x : A) :
  nth_error l i = Some x -> skipn i l = x :: skipn (S i) l.
Proof.
  revert i. induction l as [ | h t IH]; intros [ | i] H; simpl in *;
    try discriminate.
  - congruence.
  - now apply IH.
Qed.

Lemma LogEI_loop_vector (self : LogEI.t) (eta : float64)
    (l : list (float64 * float64)) :
  let m := List.map fst l in
  let s := List.map np.sqrt (List.map snd l) in
  let z := List.map (fun p => fsub (fdiv (fsub eta (fst p)) (snd p)) (LogEI.par self))
                    (combine m s) in
  forall (n i : nat) (log_ei : matrix),
    (i + n)%nat = List.length l ->
    List.length log_ei = List.length l ->
    LogEI.loop self eta (Arr1 m) (Arr1 s) (Arr1 z) i n log_ei =
      Ret (firstn i log_ei ++ List.map (fun mv => [LogEI_cell self eta mv]) (skipn i l)).
Proof.
  intros m s z. induction n as [ | n IH]; intros i log_ei Hin Hlen.
  - simpl. rewrite Nat.add_0_r in Hin. subst i.
    rewrite skipn_all, <- Hlen, firstn_all, app_nil_r. reflexivity.
  - assert (Hi : (i < List.length l)%nat) by lia.
    destruct (nth_error l i) as [mv | ] eqn:Hnth;
      [ | apply nth_error_None in Hnth; lia].
    cbn [LogEI.loop np.getitem].
    unfold z, s, m.
    rewrite map_map, combine_map_same, map_map, !nth_error_map, Hnth.
    cbn [option_map or_raise bind np.item fst snd].
    unfold z, s, m in IH. rewrite map_map, combine_map_same, map_map in IH.
    rewrite IH; [ | lia | rewrite setitem_length; exact Hlen].
    rewrite firstn_setitem by lia.
    rewrite (skipn_nth_error l i mv Hnth). cbn [List.map].
    rewrite <- app_assoc. reflexivity.
Qed.

(** In bounds and without the derivative, LogEI asks the model for the
    predictions, then for the incumbent, and on a vector of predictions
    returns one cell per candidate, in order. *)
Lemma LogEI_run_vector (self : LogEI.t) (mdl : Model) (X : matrix)
    (Z : features) (l : list (float64 * float64)) :
  LogEI.out_of_bounds self X = false ->
  model_predict mdl X Z = Arr1 l ->
  run mdl (LogEI.__call__ self X Z false) =
    ([Called_predict X Z; Called_getCurrentBest],
     Returned (List.map (fun mv => [LogEI_cell self (model_getCurrentBest mdl) mv]) l)).
Proof.
  intros Hin Hp. unfold LogEI.__call__. rewrite Hin.
  cbn [predict getCurrentBest bind run]. rewrite Hp.
  cbn [np.map np.map2 np.size].
  rewrite (LogEI_loop_vector self (model_getCurrentBest mdl) l
             (List.length (List.map fst l)) 0 (np.zeros_col (List.length (List.map fst l)))).
  - reflexivity.
  - now rewrite length_map.
  - unfold np.zeros_col. now rewrite repeat_length, length_map.
Qed.

(** ** PI on a vector of predictions *)

Lemma PI_run_vector (self : PI.t) (mdl : Model) (X : matrix)
    (Z : features) (l : list (float64 * float64)) :
  (List.length X <= 1)%nat ->
  PI.out_of_bounds self X = false ->
  model_predict mdl X Z = Arr1 l ->
  run mdl (PI.__call__ self X Z false) =
    ([Called_predict X Z; Called_getCurrentBest],
     Returned (PI.Score [List.map (PI_cell self (model_getCurrentBest mdl)) l])).
Proof.
  intros Hlen Hin Hp. unfold PI.__call__.
  assert (Hk : (1 <? List.length X)%nat = false) by (apply Nat.ltb_ge; lia).
  rewrite Hk, Hin.
  cbn [predict getCurrentBest bind run]. rewrite Hp.
  cbn [np.map np.map2 or_raise bind run].
  rewrite !map_map, combine_map_same, !map_map. reflexivity.
Qed.

(** ** Zero variance *)

Lemma sqrt_zero : np.sqrt (Fin 0) = Fin 0.
Proof. unfold np.sqrt. Rdecide. now rewrite sqrt_0. Qed.

Lemma feq_abs_zero (c : float64) : feq (py_abs c) (Fin 0) = feq c (Fin 0).
Proof.
  destruct c as [x | | | | ]; try reflexivity. simpl.
  unfold Reqb. destruct (Req_dec_T (Rabs x) 0) as [H | H];
    destruct (Req_dec_T x 0) as [H' | H']; try reflexivity.
  - exfalso. revert H. apply Rabs_no_R0. exact H'.
  - exfalso. apply H. subst x. apply Rabs_R0.
Qed.

(** The margin term [par * sigma] of a zero deviation is a zero, or [nan]
    when [par] is not finite. *)
Lemma mul_zero_cases (p z : float64) :
  z = Fin 0 \/ z = NZero ->
  fmul p z = Fin 0 \/ fmul p z = NZero \/ fmul p z = NaN.
Proof.
  intros [-> | ->]; destruct p as [x | | | | ]; cbn [fmul]; Rcases;
    rewrite ?Rmult_0_r; auto; lra.
Qed.

(** With a zero margin term, [mu < eta - par_s] and [eta - mu - par_s > 0]
    are one test, on every binary64 value. *)
Lemma lt_iff_diff_pos (eta mu par_s : float64) :
  par_s = Fin 0 \/ par_s = NZero \/ par_s = NaN ->
  flt mu (fsub eta par_s) = fgt (fsub (fsub eta mu) par_s) (Fin 0).
Proof.
  intros [-> | [-> | ->]]; destruct eta as [e | | | | ], mu as [m | | | | ];
    unfold fgt, fsub; cbn [fneg fadd flt]; Rcases; cbn [fneg fadd flt]; Rcases;
    try reflexivity; lra.
Qed.

(** At a zero variance of either sign the deviation is a zero, the first
    two branches of the loop decide, and the entry is [log(c)] or [-inf]. *)
Lemma LogEI_cell_zero (self : LogEI.t) (eta mu v0 : float64) :
  v0 = Fin 0 \/ v0 = NZero ->
  let c := fsub (fsub eta mu) (fmul (LogEI.par self) (np.sqrt v0)) in
  feq c (Fin 0) = false ->
  LogEI_cell self eta (mu, v0) = if fgt c (Fin 0) then np.log c else NInf.
Proof.
  intros Hv c Hc. unfold LogEI_cell, LogEI.log_ei_at. cbn [fst snd].
  fold c. rewrite feq_abs_zero, Hc.
  assert (Hs : np.sqrt v0 = Fin 0 \/ np.sqrt v0 = NZero).
  { destruct Hv as [-> | ->]; [left; apply sqrt_zero | right; reflexivity]. }
  assert (Hz : feq (np.sqrt v0) (Fin 0) = true).
  { destruct Hs as [-> | ->]; simpl; now Rdecide. }
  rewrite Hz. unfold c.
  rewrite (lt_iff_diff_pos eta mu _ (mul_zero_cases (LogEI.par self) _ Hs)).
  reflexivity.
Qed.

Lemma LogEI_cell_zero_variance (self : LogEI.t) (eta mu : float64) :
  let c := fsub (fsub eta mu) (fmul (LogEI.par self) (np.sqrt (Fin 0))) in
  feq c (Fin 0) = false ->
  LogEI_cell self eta (mu, Fin 0) = if fgt c (Fin 0) then np.log c else NInf.
Proof. apply LogEI_cell_zero. now left. Qed.

(** Subtracting a zero of either sign changes neither the value nor the
    outcome of a comparison; it can change the sign of a zero only. *)
Lemma fsub_zero (w z : float64) :
  z = Fin 0 \/ z = NZero ->
  feq (fsub w z) (Fin 0) = feq w (Fin 0) /\
  np.log (fsub w z) = np.log w /\
  forall mu, flt mu (fsub w z) = flt mu w.
Proof.
  intros [-> | ->]; destruct w as [x | | | | ]; unfold fsub;
    (split; [ | split; [ | intros [m | | | | ]]]);
    repeat (cbn [fneg fadd feq flt np.log]; rewrite ?Rplus_0_r; Rcases);
    try reflexivity; lra.
Qed.

Lemma mul_zero_nan (p z : float64) :
  z = Fin 0 \/ z = NZero -> fmul p z = NaN -> fmul p (Fin 0) = NaN.
Proof.
  intros [-> | ->]; [tauto | ].
  destruct p as [x | | | | ]; cbn [fmul]; Rcases; try reflexivity;
    try discriminate; lra.
Qed.

Lemma mul_zero_not_nan (p z : float64) :
  z = Fin 0 \/ z = NZero -> fmul p z <> NaN -> fmul p (Fin 0) <> NaN.
Proof.
  intros [-> | ->]; [tauto | ].
  destruct p as [x | | | | ]; cbn [fmul]; Rcases; try discriminate;
    try congruence; lra.
Qed.

(** At a zero variance of either sign, and on every binary64 value of the
    mean, the incumbent and the margin, the entry of LogEI is
    [log(eta - mu)] where [mu < eta] and [-inf] elsewhere ([-inf] also when
    the margin is infinite or [nan]). *)
Lemma LogEI_cell_zero_closed (self : LogEI.t) (eta mu v0 : float64) :
  v0 = Fin 0 \/ v0 = NZero ->
  LogEI_cell self eta (mu, v0) =
    match fmul (LogEI.par self) (Fin 0) with
    | NaN => NInf
    | _ => if feq (fsub eta mu) (Fin 0) then NInf
           else if flt mu eta then np.log (fsub eta mu) else NInf
    end.
Proof.
  intros Hv. unfold LogEI_cell, LogEI.log_ei_at. cbn [fst snd].
  assert (Hs : np.sqrt v0 = Fin 0 \/ np.sqrt v0 = NZero).
  { destruct Hv as [-> | ->]; [left; apply sqrt_zero | right; reflexivity]. }
  assert (Hz : feq (np.sqrt v0) (Fin 0) = true).
  { destruct Hs as [-> | ->]; simpl; now Rdecide. }
  assert (Hp : fgt (np.sqrt v0) (Fin 0) = false).
  { destruct Hs as [-> | ->]; unfold fgt; simpl; now Rdecide. }
  rewrite feq_abs_zero, Hz, Hp. cbn [fneg].
  pose proof (mul_zero_nan (LogEI.par self) _ Hs) as Hnan.
  pose proof (mul_zero_not_nan (LogEI.par self) _ Hs) as Hnot.
  destruct (mul_zero_cases (LogEI.par self) _ Hs) as [H | [H | H]].
  - destruct (fsub_zero (fsub eta mu) _ (or_introl H)) as (-> & -> & _).
    destruct (fsub_zero eta _ (or_introl H)) as (_ & _ & ->).
    destruct (fmul (LogEI.par self) (Fin 0)); try reflexivity.
    exfalso. apply Hnot; [rewrite H; discriminate | reflexivity].
  - destruct (fsub_zero (fsub eta mu) _ (or_intror H)) as (-> & -> & _).
    destruct (fsub_zero eta _ (or_intror H)) as (_ & _ & ->).
    destruct (fmul (LogEI.par self) (Fin 0)); try reflexivity.
    exfalso. apply Hnot; [rewrite H; discriminate | reflexivity].
  - rewrite (Hnan H), H.
    assert (Hsub : forall a, fsub a NaN = NaN) by (intros [ | | | | ]; reflexivity).
    rewrite !Hsub. cbn [feq]. destruct mu; reflexivity.
Qed.

(** LogEI does not see the sign of a zero variance. *)
Lemma LogEI_cell_zero_sign (self : LogEI.t) (eta mu : float64) :
  LogEI_cell self eta (mu, NZero) = LogEI_cell self eta (mu, Fin 0).
Proof. rewrite !LogEI_cell_zero_closed by auto. reflexivity. Qed.

(** C5: for a candidate [i] with variance [v[i] = 0] whose coefficient
    [c = eta - m[i] - par * sigma] is not zero, LogEI stores [log(c)] at
    index [i] when [c > 0] and [-inf] when it is not, that is
    [log(max(c, 0))]. *)
Theorem LogEI_zero_variance (self : LogEI.t) (mdl : Model) (X : matrix)
    (Z : features) (l : list (float64 * float64)) (i : nat) (mu : float64) :
  LogEI.out_of_bounds self X = false ->
  model_predict mdl X Z = Arr1 l ->
  nth_error l i = Some (mu, Fin 0) ->
  let eta := model_getCurrentBest mdl in
  let sigma := np.sqrt (Fin 0) in
  let c := fsub (fsub eta mu) (fmul (LogEI.par self) sigma) in
  feq c (Fin 0) = false ->
  sigma = Fin 0 /\
  exists log_ei : matrix,
    snd (run mdl (LogEI.__call__ self X Z false)) = Returned log_ei /\
    nth_error log_ei i = Some [if fgt c (Fin 0) then np.log c else NInf].
Proof.
  intros Hin Hp Hnth eta sigma c Hc. split; [apply sqrt_zero | ].
  rewrite (LogEI_run_vector self mdl X Z l Hin Hp). cbn [snd].
  eexists. split; [reflexivity | ].
  rewrite nth_error_map, Hnth. cbn [option_map].
  do 2 f_equal. exact (LogEI_cell_zero_variance self eta mu Hc).
Qed.

Lemma batch_inside_LogEI : LogEI.out_of_bounds unit_box_LogEI batch_inside = false.
Proof. unfold LogEI.out_of_bounds, np.any_cmp. simpl. unfold fgt, flt. Rdecide. reflexivity. Qed.

Lemma LogEI_zero_variance_witness :
  exists log_ei : matrix,
    snd (run (constant_model [(Fin (-5), Fin 0); (Fin 5, Fin 0)] (Fin 0))
             (LogEI.__call__ unit_box_LogEI batch_inside None false))
      = Returned log_ei /\
    nth_error log_ei 1 = Some [NInf].
Proof.
  assert (Hc : feq (fsub (fsub (Fin 0) (Fin 5))
                         (fmul (Fin (1 / 100)) (np.sqrt (Fin 0)))) (Fin 0) = false).
  { rewrite sqrt_zero. Fdecide. reflexivity. }
  destruct (LogEI_zero_variance unit_box_LogEI
              (constant_model [(Fin (-5), Fin 0); (Fin 5, Fin 0)] (Fin 0))
              batch_inside None [(Fin (-5), Fin 0); (Fin 5, Fin 0)] 1 (Fin 5)
              batch_inside_LogEI eq_refl eq_refl Hc) as [_ (log_ei & Hrun & Hcell)].
  exists log_ei. split; [exact Hrun | ].
  rewrite Hcell. cbn [constant_model model_getCurrentBest unit_box_LogEI LogEI.par].
  rewrite sqrt_zero. Fdecide. reflexivity.
Defined.

(** The sign of a zero variance makes no difference to LogEI: for a
    candidate whose variance is [-0.0] the entry is the one computed for
    [+0.0]. *)
Lemma LogEI_negative_zero_variance (self : LogEI.t) (mdl : Model) (X : matrix)
    (Z : features) (l : list (float64 * float64)) (i : nat) (mu : float64) :
  LogEI.out_of_bounds self X = false ->
  model_predict mdl X Z = Arr1 l ->
  nth_error l i = Some (mu, NZero) ->
  exists log_ei : matrix,
    snd (run mdl (LogEI.__call__ self X Z false)) = Returned log_ei /\
    nth_error log_ei i =
      Some [LogEI_cell self (model_getCurrentBest mdl) (mu, Fin 0)].
Proof.
  intros Hin Hp Hnth.
  rewrite (LogEI_run_vector self mdl X Z l Hin Hp). cbn [snd].
  eexists. split; [reflexivity | ].
  rewrite nth_error_map, Hnth. cbn [option_map].
  now rewrite LogEI_cell_zero_sign.
Qed.

Lemma PI_cell_zero_variance (self : PI.t) (eta mu : float64) :
  let d := fsub (fsub eta mu) (PI.par self) in
  PI_cell self eta (mu, Fin 0) =
    if fgt d (Fin 0) then Fin 1 else if flt d (Fin 0) then Fin 0 else NaN.
Proof.
  intros d. unfold PI_cell. cbn [fst snd]. fold d. rewrite sqrt_zero.
  destruct d as [x | | | | ]; unfold fgt; cbn [fdiv flt norm.cdf]; Rcases;
    cbn [fneg norm.cdf]; try reflexivity; lra.
Qed.

(** At the variance [-0.0] the deviation is [-0.0] and the quotient has the
    opposite sign. *)
Lemma PI_cell_negative_zero_variance (self : PI.t) (eta mu : float64) :
  let d := fsub (fsub eta mu) (PI.par self) in
  PI_cell self eta (mu, NZero) =
    if fgt d (Fin 0) then Fin 0 else if flt d (Fin 0) then Fin 1 else NaN.
Proof.
  intros d. unfold PI_cell. cbn [fst snd np.sqrt]. fold d.
  destruct d as [x | | | | ]; unfold fgt; cbn [fdiv flt norm.cdf]; Rcases;
    cbn [fneg norm.cdf]; try reflexivity; lra.
Qed.

(** C6, as the code has it: PI has no case for a zero variance, the sign
    of the quotient [(eta - m - par) / s] decides.  With
    [d = eta - m - par]: at the variance [+0.0] PI returns [1] when [d > 0]
    and [0] when [d < 0]; at the variance [-0.0] the deviation
    [np.sqrt(-0.0)] is [-0.0] and the two values are exchanged; at either
    zero PI returns [nan] when [d] is zero (the quotient [0/0]) or [nan]. *)
Theorem PI_zero_variance (self : PI.t) (mdl : Model) (X : matrix)
    (Z : features) (mu v0 : float64) :
  (List.length X <= 1)%nat ->
  PI.out_of_bounds self X = false ->
  model_predict mdl X Z = Arr1 [(mu, v0)] ->
  let d := fsub (fsub (model_getCurrentBest mdl) mu) (PI.par self) in
  (v0 = Fin 0 ->
   snd (run mdl (PI.__call__ self X Z false)) =
     Returned (PI.Score [[if fgt d (Fin 0) then Fin 1
                          else if flt d (Fin 0) then Fin 0 else NaN]]))
  /\
  (v0 = NZero ->
   snd (run mdl (PI.__call__ self X Z false)) =
     Returned (PI.Score [[if fgt d (Fin 0) then Fin 0
                          else if flt d (Fin 0) then Fin 1 else NaN]])).
Proof.
  intros Hlen Hin Hp d.
  rewrite (PI_run_vector self mdl X Z _ Hlen Hin Hp). cbn [snd List.map].
  split; intros ->; do 4 f_equal;
    [apply PI_cell_zero_variance | apply PI_cell_negative_zero_variance].
Qed.

Lemma PI_zero_variance_witness :
  snd (run (constant_model [(Fin (-5), Fin 0)] (Fin 0))
           (PI.__call__ unit_box_PI x_inside None false))
    = Returned (PI.Score [[Fin 1]]) /\
  snd (run (constant_model [(Fin (-5), NZero)] (Fin 0))
           (PI.__call__ unit_box_PI x_inside None false))
    = Returned (PI.Score [[Fin 0]]).
Proof.
  assert (Hlen : (List.length x_inside <= 1)%nat) by (simpl; lia).
  split.
  - rewrite (proj1 (PI_zero_variance unit_box_PI
                      (constant_model [(Fin (-5), Fin 0)] (Fin 0))
                      x_inside None (Fin (-5)) (Fin 0) Hlen x_inside_PI eq_refl)
               eq_refl).
    cbn [constant_model model_getCurrentBest unit_box_PI PI.par].
    Fdecide. reflexivity.
  - rewrite (proj2 (PI_zero_variance unit_box_PI
                      (constant_model [(Fin (-5), NZero)] (Fin 0))
                      x_inside None (Fin (-5)) NZero Hlen x_inside_PI eq_refl)
               eq_refl).
    cbn [constant_model model_getCurrentBest unit_box_PI PI.par].
    Fdecide. reflexivity.
Defined.

(** C6 fails as stated on the boundary: with [m = 0], [v = 0],
    [eta = 0.1] and [par = 0.1], so that [eta - m - par = 0], PI returns
    [nan] and not [0]. *)
Lemma PI_zero_variance_boundary_nan :
  snd (run (constant_model [(Fin 0, Fin 0)] (Fin (1 / 10)))
           (PI.__call__ unit_box_PI x_inside None false))
    = Returned (PI.Score [[NaN]])
  /\ snd (run (constant_model [(Fin 0, Fin 0)] (Fin (1 / 10)))
              (PI.__call__ unit_box_PI x_inside None false))
    <> Returned (PI.Score [[Fin 0]]).
Proof.
  assert (H : snd (run (constant_model [(Fin 0, Fin 0)] (Fin (1 / 10)))
                       (PI.__call__ unit_box_PI x_inside None false))
              = Returned (PI.Score [[NaN]])).
  { rewrite (PI_run_vector unit_box_PI
               (constant_model [(Fin 0, Fin 0)] (Fin (1 / 10)))
               x_inside None [(Fin 0, Fin 0)]
               ltac:(simpl; lia) x_inside_PI eq_refl).
    cbn [snd List.map]. rewrite PI_cell_zero_variance.
    cbn [constant_model model_getCurrentBest unit_box_PI PI.par].
    Fdecide. reflexivity. }
  split; [exact H | rewrite H; discriminate].
Qed.

(** ** The scenario [m = -5], [v = 0], [eta = 0], [par = 0.01] *)

Lemma x_inside_PI_001 : PI.out_of_bounds unit_box_PI_001 x_inside = false.
Proof. unfold PI.out_of_bounds, np.any_cmp. simpl. unfold fgt, flt. Rdecide. reflexivity. Qed.

Lemma LogEI_cell_scenario (self : LogEI.t) :
  LogEI.par self = Fin (1 / 100) ->
  LogEI_cell self (Fin 0) (Fin (-5), Fin 0) = Fin (ln 5).
Proof.
  intros Hpar.
  assert (Hc : fsub (fsub (Fin 0) (Fin (-5)))
                    (fmul (LogEI.par self) (np.sqrt (Fin 0))) = Fin 5).
  { rewrite Hpar, sqrt_zero. Fdecide. f_equal. lra. }
  rewrite LogEI_cell_zero_variance; rewrite Hc; Fdecide; reflexivity.
Qed.

(** C7, as the code has it: at [m = [-5.0]], [v = [0.0]], [eta = 0.0] and
    [par = 0.01], LogEI returns [log(5.0)] (the margin term is
    [par * sigma = 0]) and PI returns [1]. *)
Theorem scenario_deterministic_better (lself : LogEI.t) (pself : PI.t)
    (mdl : Model) (X : matrix) (Z : features) :
  LogEI.par lself = Fin (1 / 100) ->
  PI.par pself = Fin (1 / 100) ->
  LogEI.out_of_bounds lself X = false ->
  PI.out_of_bounds pself X = false ->
  (List.length X <= 1)%nat ->
  model_predict mdl X Z = Arr1 [(Fin (-5), Fin 0)] ->
  model_getCurrentBest mdl = Fin 0 ->
  snd (run mdl (LogEI.__call__ lself X Z false)) = Returned [[Fin (ln 5)]] /\
  snd (run mdl (PI.__call__ pself X Z false)) = Returned (PI.Score [[Fin 1]]).
Proof.
  intros HparL HparP HinL HinP Hlen Hp Heta. split.
  - rewrite (LogEI_run_vector lself mdl X Z _ HinL Hp). cbn [snd List.map].
    rewrite Heta, (LogEI_cell_scenario lself HparL). reflexivity.
  - rewrite (PI_run_vector pself mdl X Z _ Hlen HinP Hp). cbn [snd List.map].
    rewrite PI_cell_zero_variance, Heta, HparP.
    Fdecide. reflexivity.
Qed.

Lemma scenario_deterministic_better_witness :
  snd (run (constant_model [(Fin (-5), Fin 0)] (Fin 0))
           (LogEI.__call__ unit_box_LogEI x_inside None false))
    = Returned [[Fin (ln 5)]] /\
  snd (run (constant_model [(Fin (-5), Fin 0)] (Fin 0))
           (PI.__call__ unit_box_PI_001 x_inside None false))
    = Returned (PI.Score [[Fin 1]]).
Proof.
  apply (scenario_deterministic_better unit_box_LogEI unit_box_PI_001
           (constant_model [(Fin (-5), Fin 0)] (Fin 0)) x_inside None).
  - reflexivity.
  - reflexivity.
  - exact x_inside_LogEI.
  - exact x_inside_PI_001.
  - simpl; lia.
  - reflexivity.
  - reflexivity.
Defined.

(** C7 fails as stated: in that scenario LogEI returns [log(5.0)], which is
    not [log(4.99)]. *)
Lemma scenario_LogEI_is_not_log_499 :
  snd (run (constant_model [(Fin (-5), Fin 0)] (Fin 0))
           (LogEI.__call__ unit_box_LogEI x_inside None false))
    = Returned [[Fin (ln 5)]]
  /\ snd (run (constant_model [(Fin (-5), Fin 0)] (Fin 0))
              (LogEI.__call__ unit_box_LogEI x_inside None false))
    <> Returned [[Fin (ln (499 / 100))]].
Proof.
  assert (H : snd (run (constant_model [(Fin (-5), Fin 0)] (Fin 0))
                       (LogEI.__call__ unit_box_LogEI x_inside None false))
              = Returned [[Fin (ln 5)]]).
  { rewrite (LogEI_run_vector unit_box_LogEI
               (constant_model [(Fin (-5), Fin 0)] (Fin 0)) x_inside None
               [(Fin (-5), Fin 0)] x_inside_LogEI eq_refl).
    cbn [snd List.map constant_model model_getCurrentBest].
    rewrite (LogEI_cell_scenario unit_box_LogEI eq_refl). reflexivity. }
  split; [exact H | ].
  rewrite H. intros Heq.
  assert (Hln : ln 5 = ln (499 / 100)) by congruence.
  pose proof (ln_increasing (499 / 100) 5 ltac:(lra) ltac:(lra)). lra.
Qed.

(** ** PI when the predictions are not a vector *)

Lemma snd_run_Predict {A : Type} (mdl : Model) X Z (k : stats -> prog A) :
  snd (run mdl (Predict X Z k)) = snd (run mdl (k (model_predict mdl X Z))).
Proof. cbn [run]. now destruct (run mdl (k (model_predict mdl X Z))). Qed.

Lemma snd_run_GetCurrentBest {A : Type} (mdl : Model) (k : float64 -> prog A) :
  snd (run mdl (GetCurrentBest k)) = snd (run mdl (k (model_getCurrentBest mdl))).
Proof. cbn [run]. now destruct (run mdl (k (model_getCurrentBest mdl))). Qed.

Lemma snd_run_PredictiveGradients {A : Type} (mdl : Model) X
    (k : gradients -> prog A) :
  snd (run mdl (PredictiveGradients X k)) =
  snd (run mdl (k (model_predictive_gradients mdl X))).
Proof. cbn [run]. now destruct (run mdl (k (model_predictive_gradients mdl X))). Qed.

(** A program whose continuation always raises never returns. *)
Lemma bind_never_returns {A B : Type} (mdl : Model) (p : prog A)
    (k : A -> prog B) :
  (forall a, exists e, snd (run mdl (k a)) = Raised e) ->
  exists e, snd (run mdl (bind p k)) = Raised e.
Proof.
  intros Hk. induction p as [a | e | X Z k' IH | k' IH | X k' IH]; cbn [bind].
  - apply Hk.
  - exists e. reflexivity.
  - rewrite snd_run_Predict. apply IH.
  - rewrite snd_run_GetCurrentBest. apply IH.
  - rewrite snd_run_PredictiveGradients. apply IH.
Qed.

(** C10: in bounds and on a single row, PI returns a score only when the
    model's predictions are one-dimensional.  When [predict] returns a
    two-dimensional array, a call without the derivative ends in
    [UnboundLocalError] on [return_f] after the two model calls, and a call
    with the derivative never returns either: it raises. *)
Theorem PI_return_f_unbound (self : PI.t) (mdl : Model) (X : matrix)
    (Z : features) :
  (List.length X <= 1)%nat ->
  PI.out_of_bounds self X = false ->
  (forall derivative v,
      snd (run mdl (PI.__call__ self X Z derivative)) = Returned v ->
      np.ndim (model_predict mdl X Z) = 1%nat)
  /\
  (forall rows,
      model_predict mdl X Z = Arr2 rows ->
      run mdl (PI.__call__ self X Z false) =
        ([Called_predict X Z; Called_getCurrentBest],
         Raised (UnboundLocalError "return_f"))
      /\ exists e, snd (run mdl (PI.__call__ self X Z true)) = Raised e).
Proof.
  intros Hlen Hin.
  assert (Hk : (1 <? List.length X)%nat = false) by (apply Nat.ltb_ge; lia).
  assert (H2 : forall rows, model_predict mdl X Z = Arr2 rows ->
            run mdl (PI.__call__ self X Z false) =
              ([Called_predict X Z; Called_getCurrentBest],
               Raised (UnboundLocalError "return_f"))
            /\ exists e, snd (run mdl (PI.__call__ self X Z true)) = Raised e).
  { intros rows Hp. unfold PI.__call__. rewrite Hk, Hin.
    cbn [predict getCurrentBest predictive_gradients bind run]. rewrite Hp.
    cbn [np.map np.map2 or_raise bind run]. split; [reflexivity | ].
    match goal with
    | |- context [run mdl (bind ?p ?k)] =>
        destruct (bind_never_returns mdl p k) as [e He]
    end.
    - intros df. eexists. reflexivity.
    - exists e. destruct (run mdl _) as [lg r]. exact He. }
  split; [ | exact H2].
  intros derivative v Hret.
  destruct (model_predict mdl X Z) as [l | rows] eqn:Hp; [reflexivity | ].
  exfalso. destruct (H2 rows eq_refl) as [Hf [e He]].
  destruct derivative.
  - rewrite He in Hret. discriminate.
  - rewrite Hf in Hret. discriminate.
Qed.

Lemma PI_return_f_unbound_witness :
  run matrix_model (PI.__call__ unit_box_PI x_inside None false) =
    ([Called_predict x_inside None; Called_getCurrentBest],
     Raised (UnboundLocalError "return_f")).
Proof.
  destruct (PI_return_f_unbound unit_box_PI matrix_model x_inside None
              ltac:(simpl; lia) x_inside_PI) as [_ H].
  exact (proj1 (H [[(Fin 0, Fin 1)]] eq_refl)).
Defined.

(** ** The normal distribution function *)

Lemma left_tail_lub : is_lub Gauss.neg_areas Gauss.left_tail.
Proof.
  unfold Gauss.left_tail.
  destruct (completeness Gauss.neg_areas Gauss.neg_areas_bound
              Gauss.neg_areas_inhabited); assumption.
Qed.

Lemma cdf_incr a b : a < b -> Gauss.cdf a < Gauss.cdf b.
Proof. intros H. pose proof (Gauss.area_incr a b H). unfold Gauss.cdf. lra. Qed.

Lemma cdf_nonneg z : 0 <= Gauss.cdf z.
Proof.
  destruct left_tail_lub as [Hub _].
  assert (- Gauss.area z <= Gauss.left_tail) by (apply Hub; exists z; reflexivity).
  unfold Gauss.cdf. lra.
Qed.

Lemma cdf_pos z : 0 < Gauss.cdf z.
Proof.
  pose proof (cdf_nonneg (z - 1)). pose proof (cdf_incr (z - 1) z ltac:(lra)). lra.
Qed.

Lemma cdf_deriv z : derivable_pt_lim Gauss.cdf z (Gauss.pdf z).
Proof.
  unfold Gauss.cdf. replace (Gauss.pdf z) with (0 + Gauss.pdf z) by ring.
  apply (derivable_pt_lim_plus (fct_cte Gauss.left_tail) Gauss.area);
    [apply derivable_pt_lim_const | apply Gauss.area_deriv].
Qed.

(** The tail bound of the normal distribution: [-z * Phi(z) <= phi(z)]
    below zero. *)
Lemma cdf_tail z : z < 0 -> - z * Gauss.cdf z <= Gauss.pdf z.
Proof.
  intros Hz.
  destruct left_tail_lub as [_ Hleast].
  assert (Hub : is_upper_bound Gauss.neg_areas (Gauss.pdf z / - z - Gauss.area z)).
  { intros y [x ->].
    assert (H : - z * (Gauss.area z - Gauss.area x) <= Gauss.pdf z).
    { destruct (Rle_dec x z) as [Hx | Hx].
      - pose proof (Gauss.tail_bound x z Hx ltac:(lra)).
        pose proof (Gauss.pdf_pos x). lra.
      - pose proof (Gauss.area_incr z x ltac:(lra)).
        pose proof (Gauss.pdf_pos z). nra. }
    assert (Gauss.area z - Gauss.area x <= Gauss.pdf z / - z).
    { apply Rmult_le_reg_l with (- z); [lra | ].
      replace (- z * (Gauss.pdf z / - z)) with (Gauss.pdf z) by (field; lra).
      exact H. }
    lra. }
  specialize (Hleast _ Hub).
  unfold Gauss.cdf.
  assert (H : Gauss.left_tail + Gauss.area z <= Gauss.pdf z / - z) by lra.
  apply Rmult_le_compat_l with (r := - z) in H; [ | lra].
  replace (- z * (Gauss.pdf z / - z)) with (Gauss.pdf z) in H by (field; lra).
  exact H.
Qed.

Lemma pdf_le_mode z : Gauss.pdf z <= Gauss.pdf 0.
Proof.
  unfold Gauss.pdf, Rdiv. apply Rmult_le_compat_r.
  - left. apply Rinv_0_lt_compat, Gauss.sqrt_2PI_pos.
  - destruct (Req_dec_T z 0) as [-> | Hz]; [right; reflexivity | ].
    left. apply exp_increasing. nra.
Qed.

(** [Gauss.cdf] is the antiderivative of the density ([cdf_deriv]) that
    vanishes at minus infinity: the distribution function. *)
Lemma cdf_vanishes_left (eps : R) :
  0 < eps -> exists z0, forall z, z <= z0 -> Gauss.cdf z < eps.
Proof.
  intros Heps. pose proof (Gauss.pdf_pos 0) as H0.
  exists (- (Gauss.pdf 0 / eps) - 1). intros z Hz.
  assert (Hq : 0 < Gauss.pdf 0 / eps) by now apply Rdiv_lt_0_compat.
  pose proof (cdf_tail z ltac:(lra)) as Ht.
  pose proof (pdf_le_mode z) as Hm.
  pose proof (cdf_pos z) as Hc.
  assert (Hmul : Gauss.pdf 0 / eps * eps = Gauss.pdf 0) by (field; lra).
  destruct (Rlt_dec (Gauss.cdf z) eps) as [Hlt | Hge]; [exact Hlt | exfalso].
  assert (Gauss.pdf 0 / eps * eps <= Gauss.pdf 0 / eps * Gauss.cdf z)
    by (apply Rmult_le_compat_l; lra).
  nra.
Qed.

Lemma ei_std_deriv z : derivable_pt_lim Gauss.ei_std z (Gauss.cdf z).
Proof.
  unfold Gauss.ei_std.
  replace (Gauss.cdf z)
    with ((1 * Gauss.cdf z + z * Gauss.pdf z) + (- z * Gauss.pdf z)) by ring.
  apply (derivable_pt_lim_plus (fun t => t * Gauss.cdf t) Gauss.pdf).
  - apply (derivable_pt_lim_mult id Gauss.cdf);
      [apply derivable_pt_lim_id | apply cdf_deriv].
  - apply Gauss.pdf_deriv.
Qed.

Lemma ei_std_incr a b : a < b -> Gauss.ei_std a < Gauss.ei_std b.
Proof.
  intros H. apply (Gauss.deriv_pos_incr Gauss.ei_std Gauss.cdf); auto.
  - intros; apply ei_std_deriv.
  - intros; apply cdf_pos.
Qed.

Lemma ei_std_pos z : 0 < Gauss.ei_std z.
Proof.
  assert (H : 0 <= Gauss.ei_std (Rmin z (-1) - 1)).
  { unfold Gauss.ei_std. pose proof (Rmin_r z (-1)).
    pose proof (cdf_tail (Rmin z (-1) - 1) ltac:(lra)). lra. }
  pose proof (Rmin_l z (-1)).
  pose proof (ei_std_incr (Rmin z (-1) - 1) z ltac:(lra)). lra.
Qed.

(** Expected Improvement is the scaled improvement of a standard normal. *)
Lemma EI_scaled eta m par s :
  s <> 0 -> Gauss.EI eta m par s = s * Gauss.ei_std ((eta - m) / s - par).
Proof. intros Hs. unfold Gauss.EI, Gauss.ei_std. cbv zeta. field. exact Hs. Qed.

Lemma EI_pos eta m par s : 0 < s -> 0 < Gauss.EI eta m par s.
Proof.
  intros Hs. rewrite EI_scaled by lra.
  apply Rmult_lt_0_compat; [exact Hs | apply ei_std_pos].
Qed.

Lemma exp_logpdf z : exp (Gauss.logpdf z) = Gauss.pdf z.
Proof.
  unfold Gauss.logpdf, Gauss.pdf, Rminus.
  rewrite exp_plus, exp_Ropp, exp_ln by apply Gauss.sqrt_2PI_pos. reflexivity.
Qed.

(** ** Sums and differences in the log domain *)

Lemma log_sum_exp (a b : R) :
  (if Rlt_dec a b then b else a) + ln (1 + exp (- Rabs (b - a))) =
  ln (exp a + exp b).
Proof.
  pose proof (exp_pos a) as Ha. pose proof (exp_pos b) as Hb.
  destruct (Rlt_dec a b) as [Hab | Hab].
  - rewrite Rabs_pos_eq by lra.
    pose proof (exp_pos (- (b - a))) as Hd.
    rewrite <- (ln_exp b) at 1. rewrite <- ln_mult by (apply exp_pos || lra).
    f_equal. rewrite Rmult_plus_distr_l, <- exp_plus.
    replace (b + - (b - a)) with a by ring. ring.
  - rewrite Rabs_left1 by lra.
    pose proof (exp_pos (- - (b - a))) as Hd.
    rewrite <- (ln_exp a) at 1. rewrite <- ln_mult by (apply exp_pos || lra).
    f_equal. rewrite Rmult_plus_distr_l, <- exp_plus.
    replace (a + - - (b - a)) with b by ring. ring.
Qed.

Lemma log_diff_exp (a b : R) :
  a < b -> b + ln (1 - exp (a - b)) = ln (exp b - exp a).
Proof.
  intros Hab.
  assert (Hd : exp (a - b) < 1).
  { rewrite <- exp_0. apply exp_increasing. lra. }
  rewrite <- (ln_exp b) at 1. rewrite <- ln_mult by (apply exp_pos || lra).
  f_equal. unfold Rminus. rewrite Rmult_plus_distr_l.
  rewrite Ropp_mult_distr_r_reverse, <- exp_plus.
  replace (b + (a + - b)) with a by ring. ring.
Qed.

(** ** The branches of LogEI over the reals *)

Lemma np_log_pos (x : R) : 0 < x -> np.log (Fin x) = Fin (ln x).
Proof. intros H. unfold np.log. now rewrite Rcmp_Gt. Qed.

Lemma np_sqrt_pos (v : R) : 0 < sqrt v -> np.sqrt (Fin v) = Fin (sqrt v).
Proof.
  intros Hs. unfold np.sqrt. rewrite Rltb_false; [reflexivity | ].
  intros Hv. rewrite sqrt_neg_0 in Hs by lra. lra.
Qed.

Lemma np_exp_neg (r : R) : np.exp (fneg (Fin r)) = Fin (exp (- r)).
Proof.
  unfold fneg, Reqb. destruct (Req_dec_T r 0) as [-> | H]; cbn [np.exp];
    [ | reflexivity].
  now rewrite Ropp_0, exp_0.
Qed.

(** Over the reals the log-sum-exp and log-difference-exp branches of the
    loop both give the logarithm of Expected Improvement, and the test
    [a >= b] of the subtracting branch never holds.  This is the mathematics
    of the branches, not a statement about binary64: there the two
    logarithms can agree to the last digit, the test can hold, and the entry
    is then [-inf]. *)
Lemma LogEI_cell_general (self : LogEI.t) (e m p v : R) :
  LogEI.par self = Fin p ->
  0 < sqrt v ->
  e - m - p * sqrt v <> 0 ->
  LogEI_cell self (Fin e) (Fin m, Fin v) = Fin (ln (Gauss.EI e m p (sqrt v))).
Proof.
  intros Hpar Hs Hc.
  unfold LogEI_cell, LogEI.log_ei_at. cbn [fst snd].
  rewrite Hpar, (np_sqrt_pos v Hs).
  set (s := sqrt v) in *.
  rewrite (fmul_Fin p s) by (intros; lra).
  rewrite !fsub_Fin, (fdiv_Fin (e + - m) s) by (intros; lra).
  rewrite !fsub_Fin. cbn [py_abs fabs feq fgt flt].
  change (Fin ((e + - m) / s + - p)) with (Fin ((e - m) / s - p)).
  set (z := (e - m) / s - p).
  assert (Hzs : z * s = e - m - p * s) by (unfold z; field; lra).
  rewrite (np_log_pos s Hs).
  cbn [norm.logpdf norm.logcdf fadd].
  assert (Hb : exp (ln s + Gauss.logpdf z) = s * Gauss.pdf z).
  { now rewrite exp_plus, exp_ln, exp_logpdf. }
  pose proof (cdf_pos z) as HPhi.
  pose proof (EI_pos e m p s Hs) as HEI.
  assert (HEIeq : Gauss.EI e m p s = (e - m - p * s) * Gauss.cdf z + s * Gauss.pdf z)
    by reflexivity.
  rewrite Reqb_false by (apply Rabs_no_R0; lra).
  rewrite (Reqb_false s 0) by lra.
  destruct (Rlt_dec m (e + - (p * s))) as [Hpos | Hneg].
  - rewrite (Rltb_true _ _ Hpos).
    rewrite np_log_pos by lra.
    cbn [fadd]. rewrite fsub_Fin. cbn [py_abs fabs]. rewrite np_exp_neg.
    cbn [fadd].
    pose proof (exp_pos (- Rabs (ln s + Gauss.logpdf z +
                                 - (ln (e + - m + - (p * s)) + ln (Gauss.cdf z))))).
    rewrite np_log_pos by lra.
    unfold py_max, fgt, flt, Rltb.
    assert (Ha : exp (ln (e + - m + - (p * s)) + ln (Gauss.cdf z))
                 = (e - m - p * s) * Gauss.cdf z).
    { rewrite exp_plus, !exp_ln by lra. unfold Rminus. reflexivity. }
    pose proof (log_sum_exp (ln (e + - m + - (p * s)) + ln (Gauss.cdf z))
                            (ln s + Gauss.logpdf z)) as LSE.
    rewrite Ha, Hb in LSE. unfold Rminus in LSE.
    destruct (Rlt_dec _ _); cbn [fadd]; rewrite LSE; rewrite HEIeq; reflexivity.
  - rewrite (Rltb_false _ _ Hneg).
    assert (Hcneg : 0 < m + - e + p * s) by lra.
    rewrite np_log_pos by lra. cbn [fadd].
    assert (Ha : exp (ln (m + - e + p * s) + ln (Gauss.cdf z))
                 = - (e - m - p * s) * Gauss.cdf z).
    { rewrite exp_plus, !exp_ln by lra. ring. }
    assert (Hab : ln (m + - e + p * s) + ln (Gauss.cdf z) < ln s + Gauss.logpdf z).
    { apply exp_lt_inv. rewrite Ha, Hb. lra. }
    unfold fge, fle, flt, feq.
    rewrite Rltb_false, Reqb_false by lra.
    cbn [orb]. rewrite fsub_Fin. cbn [np.exp]. rewrite fsub_Fin.
    assert (Hd : exp (ln (m + - e + p * s) + ln (Gauss.cdf z) +
                      - (ln s + Gauss.logpdf z)) < 1).
    { rewrite <- exp_0. apply exp_increasing. lra. }
    rewrite np_log_pos by lra. cbn [fadd].
    pose proof (log_diff_exp _ _ Hab) as LDE.
    rewrite Ha, Hb in LDE. unfold Rminus in LDE.
    rewrite LDE. rewrite HEIeq. f_equal. f_equal. ring.
Qed.

(** ** Monotonicity *)

Lemma fle_Fin (x y : R) : x <= y -> fle (Fin x) (Fin y) = true.
Proof.
  intros H. unfold fle, flt, feq, Rltb, Reqb.
  destruct (Rlt_dec x y); [reflexivity | ].
  destruct (Req_dec_T x y); [reflexivity | lra].
Qed.

(** With a positive deviation LogEI is the logarithm of Expected
    Improvement over the reals, the vanishing coefficient included. *)
Lemma LogEI_cell_pos_variance (self : LogEI.t) (e m p v : R) :
  LogEI.par self = Fin p ->
  0 < sqrt v ->
  LogEI_cell self (Fin e) (Fin m, Fin v) = Fin (ln (Gauss.EI e m p (sqrt v))).
Proof.
  intros Hpar Hs.
  destruct (Req_dec_T (e - m - p * sqrt v) 0) as [Hc | Hc];
    [ | now apply LogEI_cell_general].
  unfold LogEI_cell, LogEI.log_ei_at. cbn [fst snd].
  rewrite Hpar, (np_sqrt_pos v Hs).
  rewrite (fmul_Fin p (sqrt v)) by (intros; lra).
  rewrite !fsub_Fin, (fdiv_Fin (e + - m) (sqrt v)) by (intros; lra).
  rewrite !fsub_Fin. cbn [py_abs fabs feq fgt flt].
  rewrite Reqb_true by (replace (e + - m + - (p * sqrt v)) with 0 by lra; apply Rabs_R0).
  rewrite (Rltb_true 0 (sqrt v) Hs), (np_log_pos _ Hs).
  change (Fin ((e + - m) / sqrt v + - p)) with (Fin ((e - m) / sqrt v - p)).
  cbn [norm.logpdf fadd]. f_equal.
  unfold Gauss.EI. cbv zeta. rewrite Hc, Rmult_0_l, Rplus_0_l.
  rewrite ln_mult by (exact Hs || apply Gauss.pdf_pos).
  now rewrite <- exp_logpdf, ln_exp.
Qed.

(** With zero variance LogEI is [log(eta - m)] below the incumbent. *)
Lemma LogEI_cell_zero_variance_finite (self : LogEI.t) (e m p : R) :
  LogEI.par self = Fin p ->
  LogEI_cell self (Fin e) (Fin m, Fin 0) =
    if Rlt_dec m e then Fin (ln (e - m)) else NInf.
Proof.
  intros Hpar.
  assert (Hps : fmul (Fin p) (Fin 0) = Fin 0 \/ fmul (Fin p) (Fin 0) = NZero).
  { destruct (mul_zero_cases (Fin p) (Fin 0)) as [H | [H | H]]; auto.
    revert H. cbn [fmul]. Rcases; discriminate. }
  assert (Hc : fsub (fsub (Fin e) (Fin m)) (fmul (Fin p) (Fin 0)) = Fin (e - m)).
  { rewrite fsub_Fin. destruct Hps as [-> | ->].
    - rewrite fsub_Fin. f_equal. ring.
    - unfold fsub. cbn [fneg fadd]. f_equal. ring. }
  destruct (Req_dec_T (e - m) 0) as [H0 | H0].
  - unfold LogEI_cell, LogEI.log_ei_at. cbn [fst snd].
    rewrite sqrt_zero, Hpar, Hc. unfold fgt. cbn [py_abs fabs feq flt fneg].
    rewrite Reqb_true by (rewrite H0; apply Rabs_R0).
    rewrite (Rltb_false 0 0) by lra.
    destruct (Rlt_dec m e); [lra | reflexivity].
  - rewrite LogEI_cell_zero_variance; rewrite sqrt_zero, Hpar, Hc.
    + unfold fgt. cbn [flt]. destruct (Rlt_dec m e).
      * rewrite Rltb_true by lra. apply np_log_pos. lra.
      * now rewrite Rltb_false by lra.
    + cbn [feq]. now apply Reqb_false.
Qed.

Lemma PI_cell_pos_variance (self : PI.t) (e m q v : R) :
  PI.par self = Fin q ->
  0 < sqrt v ->
  PI_cell self (Fin e) (Fin m, Fin v) = Fin (Gauss.cdf ((e - m - q) / sqrt v)).
Proof.
  intros Hpar Hs. unfold PI_cell. cbn [fst snd].
  rewrite Hpar, (np_sqrt_pos v Hs), !fsub_Fin.
  rewrite fdiv_Fin by (intros; lra). reflexivity.
Qed.

Lemma cdf_mono a b : a <= b -> Gauss.cdf a <= Gauss.cdf b.
Proof. intros [H | ->]; [left; now apply cdf_incr | right; reflexivity]. Qed.

Lemma ei_std_mono a b : a <= b -> Gauss.ei_std a <= Gauss.ei_std b.
Proof. intros [H | ->]; [left; now apply ei_std_incr | right; reflexivity]. Qed.

Lemma ln_mono x y : 0 < x -> x <= y -> ln x <= ln y.
Proof. intros Hx [H | ->]; [left; now apply ln_increasing | right; reflexivity]. Qed.

(** Expected Improvement does not increase with the predicted mean. *)
Lemma EI_mono_m e p s m1 m2 :
  0 < s -> m1 <= m2 -> Gauss.EI e m2 p s <= Gauss.EI e m1 p s.
Proof.
  intros Hs Hm. rewrite !EI_scaled by lra.
  apply Rmult_le_compat_l; [lra | ]. apply ei_std_mono.
  apply Rplus_le_compat_r. unfold Rdiv. apply Rmult_le_compat_r; [ | lra].
  left. now apply Rinv_0_lt_compat.
Qed.

(** The derivative of Expected Improvement in the deviation [s] is
    [phi(z) - par * Phi(z)]. *)
Lemma z_deriv d p s :
  s <> 0 -> derivable_pt_lim (fun t => d / t - p) s (- d / (s * s)).
Proof.
  intros Hs.
  apply (derivable_pt_lim_ext ((fct_cte d / id) - fct_cte p)%F).
  { intros t. reflexivity. }
  replace (- d / (s * s))
    with ((0 * id s - 1 * fct_cte d s) / Rsqr (id s) - 0)
    by (unfold id, fct_cte, Rsqr; field; exact Hs).
  apply derivable_pt_lim_minus; [ | apply derivable_pt_lim_const].
  apply derivable_pt_lim_div;
    [apply derivable_pt_lim_const | apply derivable_pt_lim_id | exact Hs].
Qed.

Lemma EI_deriv_s e m p s :
  0 < s ->
  derivable_pt_lim (Gauss.EI e m p) s
    (Gauss.pdf ((e - m) / s - p) - p * Gauss.cdf ((e - m) / s - p)).
Proof.
  intros Hs.
  pose (zf := fun t : R => (e - m) / t - p).
  pose (z := zf s).
  pose (z' := - (e - m) / (s * s)).
  assert (Hz : derivable_pt_lim zf s z') by (apply z_deriv; lra).
  apply (derivable_pt_lim_ext
           (((fct_cte (e - m) - mult_real_fct p id) * comp Gauss.cdf zf)
            + (id * comp Gauss.pdf zf))%F).
  { intros t. unfold Gauss.EI, plus_fct, mult_fct, minus_fct, fct_cte,
                     mult_real_fct, comp, id, zf. reflexivity. }
  replace (Gauss.pdf ((e - m) / s - p) - p * Gauss.cdf ((e - m) / s - p))
    with (((0 - p * 1) * comp Gauss.cdf zf s
           + (fct_cte (e - m) - mult_real_fct p id)%F s * (Gauss.pdf z * z'))
          + (1 * comp Gauss.pdf zf s + id s * ((- z * Gauss.pdf z) * z'))).
  2:{ unfold comp, minus_fct, fct_cte, mult_real_fct, id, z, z', zf. field. lra. }
  apply derivable_pt_lim_plus; apply derivable_pt_lim_mult.
  - apply derivable_pt_lim_minus; [apply derivable_pt_lim_const | ].
    apply derivable_pt_lim_scal, derivable_pt_lim_id.
  - apply derivable_pt_lim_comp; [exact Hz | apply cdf_deriv].
  - apply derivable_pt_lim_id.
  - apply derivable_pt_lim_comp; [exact Hz | apply Gauss.pdf_deriv].
Qed.

(** Expected Improvement does not decrease with the deviation on a segment
    where [par * Phi(z) <= phi(z)]. *)
Lemma EI_mono_s e m p s1 s2 :
  0 < s1 -> s1 <= s2 ->
  (forall s, s1 <= s <= s2 ->
     p * Gauss.cdf ((e - m) / s - p) <= Gauss.pdf ((e - m) / s - p)) ->
  Gauss.EI e m p s1 <= Gauss.EI e m p s2.
Proof.
  intros Hs1 Hs Hcond.
  apply (Gauss.deriv_nonneg_incr (Gauss.EI e m p)
           (fun s => Gauss.pdf ((e - m) / s - p) - p * Gauss.cdf ((e - m) / s - p)));
    [exact Hs | | ].
  - intros c Hc. apply EI_deriv_s. lra.
  - intros c Hc. specialize (Hcond c ltac:(lra)). lra.
Qed.

Lemma LogEI_returns_cell self mdl X Z m v e :
  LogEI.out_of_bounds self X = false ->
  predicts mdl X Z m v e ->
  LogEI_returns self mdl X Z (LogEI_cell self (Fin e) (Fin m, Fin v)).
Proof.
  intros Hin [Hp He]. unfold LogEI_returns.
  rewrite (LogEI_run_vector self mdl X Z _ Hin Hp), He. reflexivity.
Qed.

Lemma PI_returns_cell self mdl X Z m v e :
  (List.length X <= 1)%nat ->
  PI.out_of_bounds self X = false ->
  predicts mdl X Z m v e ->
  PI_returns self mdl X Z (PI_cell self (Fin e) (Fin m, Fin v)).
Proof.
  intros Hlen Hin [Hp He]. unfold PI_returns.
  rewrite (PI_run_vector self mdl X Z _ Hlen Hin Hp), He. reflexivity.
Qed.

(** Over the reals LogEI does not increase with the mean. *)
Lemma LogEI_cell_mono_m self e p v m1 m2 :
  LogEI.par self = Fin p -> 0 <= v -> m1 <= m2 ->
  fle (LogEI_cell self (Fin e) (Fin m2, Fin v))
      (LogEI_cell self (Fin e) (Fin m1, Fin v)) = true.
Proof.
  intros Hpar Hv Hm. destruct Hv as [Hv | <-].
  - assert (Hs : 0 < sqrt v) by now apply sqrt_lt_R0.
    rewrite !(LogEI_cell_pos_variance self e _ p v Hpar Hs).
    apply fle_Fin, ln_mono; [now apply EI_pos | now apply EI_mono_m].
  - rewrite !(LogEI_cell_zero_variance_finite self e _ p Hpar).
    destruct (Rlt_dec m2 e) as [H2 | H2].
    + destruct (Rlt_dec m1 e) as [H1 | H1]; [ | lra].
      apply fle_Fin, ln_mono; lra.
    + destruct (Rlt_dec m1 e); reflexivity.
Qed.

Lemma PI_cell_mono_m self e q v m1 m2 :
  PI.par self = Fin q -> 0 <= v -> m1 <= m2 ->
  fgt (PI_cell self (Fin e) (Fin m2, Fin v))
      (PI_cell self (Fin e) (Fin m1, Fin v)) = false /\
  (0 < v -> fle (PI_cell self (Fin e) (Fin m2, Fin v))
                (PI_cell self (Fin e) (Fin m1, Fin v)) = true).
Proof.
  intros Hpar Hv Hm.
  assert (Hz : 0 < v -> (e - m2 - q) / sqrt v <= (e - m1 - q) / sqrt v).
  { intros Hv'. assert (Hs : 0 < sqrt v) by now apply sqrt_lt_R0.
    unfold Rdiv. apply Rmult_le_compat_r; [ | lra].
    left. now apply Rinv_0_lt_compat. }
  split.
  - destruct Hv as [Hv | <-].
    + assert (Hs : 0 < sqrt v) by now apply sqrt_lt_R0.
      rewrite !(PI_cell_pos_variance self e _ q v Hpar Hs).
      unfold fgt. cbn [flt]. apply Rltb_false.
      pose proof (cdf_mono _ _ (Hz Hv)). lra.
    + rewrite !PI_cell_zero_variance, Hpar, !fsub_Fin.
      unfold fgt. cbn [flt]. Rcases; cbn [flt]; Rcases; try reflexivity; lra.
  - intros Hv'. assert (Hs : 0 < sqrt v) by now apply sqrt_lt_R0.
    rewrite !(PI_cell_pos_variance self e _ q v Hpar Hs).
    apply fle_Fin, cdf_mono, Hz, Hv'.
Qed.

Lemma PI_cell_mono_s self e q m v1 v2 :
  PI.par self = Fin q -> 0 < v1 -> v1 <= v2 ->
  (e - m - q <= 0 ->
   fle (PI_cell self (Fin e) (Fin m, Fin v1))
       (PI_cell self (Fin e) (Fin m, Fin v2)) = true) /\
  (0 <= e - m - q ->
   fle (PI_cell self (Fin e) (Fin m, Fin v2))
       (PI_cell self (Fin e) (Fin m, Fin v1)) = true).
Proof.
  intros Hpar Hv1 Hv.
  assert (Hs1 : 0 < sqrt v1) by now apply sqrt_lt_R0.
  assert (Hs : sqrt v1 <= sqrt v2) by now apply sqrt_le_1_alt.
  assert (Hs2 : 0 < sqrt v2) by lra.
  rewrite !(PI_cell_pos_variance self e m q _ Hpar) by assumption.
  assert (Hinv : / sqrt v2 <= / sqrt v1) by now apply Rinv_le_contravar.
  split; intros Hd; apply fle_Fin, cdf_mono; unfold Rdiv; nra.
Qed.

(** Over the reals LogEI does not decrease with the deviation on a segment
    where [par * Phi(z) <= phi(z)]. *)
Lemma LogEI_cell_mono_s self e p m v1 v2 :
  LogEI.par self = Fin p -> 0 < v1 -> v1 <= v2 ->
  (forall s, sqrt v1 <= s <= sqrt v2 ->
     p * Gauss.cdf ((e - m) / s - p) <= Gauss.pdf ((e - m) / s - p)) ->
  fle (LogEI_cell self (Fin e) (Fin m, Fin v1))
      (LogEI_cell self (Fin e) (Fin m, Fin v2)) = true.
Proof.
  intros Hpar Hv1 Hv Hcond.
  assert (Hs1 : 0 < sqrt v1) by now apply sqrt_lt_R0.
  assert (Hs : sqrt v1 <= sqrt v2) by now apply sqrt_le_1_alt.
  assert (Hs2 : 0 < sqrt v2) by lra.
  rewrite !(LogEI_cell_pos_variance self e m p _ Hpar) by assumption.
  apply fle_Fin, ln_mono; [now apply EI_pos | now apply EI_mono_s].
Qed.

(** Where the prediction is no better than the incumbent, more uncertainty
    does not lower Expected Improvement. *)
Lemma margin_condition e m p s :
  0 < s -> p <= 0 \/ e <= m ->
  p * Gauss.cdf ((e - m) / s - p) <= Gauss.pdf ((e - m) / s - p).
Proof.
  intros Hs Hcase.
  set (z := (e - m) / s - p).
  pose proof (cdf_pos z) as HPhi. pose proof (Gauss.pdf_pos z) as Hphi.
  destruct (Rle_dec p 0) as [Hp | Hp]; [nra | ].
  destruct Hcase as [Hp' | Hem]; [lra | ].
  assert (Hz : z <= - p).
  { unfold z. assert ((e - m) / s <= 0); [ | lra].
    unfold Rdiv. pose proof (Rinv_0_lt_compat s Hs). nra. }
  pose proof (cdf_tail z ltac:(lra)). nra.
Qed.


Lemma constant_model_predicts (X : matrix) (Z : features) (m v e : R) :
  predicts (constant_model [(Fin m, Fin v)] (Fin e)) X Z m v e.
Proof. split; reflexivity. Qed.

Lemma x_inside_no_margin : LogEI.out_of_bounds no_margin_LogEI x_inside = false.
Proof. unfold LogEI.out_of_bounds, np.any_cmp. simpl. unfold fgt, flt. Rdecide. reflexivity. Qed.


Lemma sqrt_4 : sqrt 4 = 2.
Proof. replace 4 with (2 * 2) by ring. apply sqrt_square. lra. Qed.


(** At the variance [-0.0] the claim fails in the mean too: with
    [eta = 0] and [par = 0.1], PI is [0] at [m = -5] and [1] at [m = 5]. *)
Lemma PI_increases_in_m_at_negative_zero :
  PI_returns unit_box_PI (constant_model [(Fin (-5), NZero)] (Fin 0))
    x_inside None (Fin 0) /\
  PI_returns unit_box_PI (constant_model [(Fin 5, NZero)] (Fin 0))
    x_inside None (Fin 1) /\
  flt (Fin 0) (Fin 1) = true.
Proof.
  assert (Hlen : (List.length x_inside <= 1)%nat) by (simpl; lia).
  unfold PI_returns. repeat split.
  - rewrite (PI_run_vector unit_box_PI
               (constant_model [(Fin (-5), NZero)] (Fin 0)) x_inside None
               [(Fin (-5), NZero)] Hlen x_inside_PI eq_refl).
    cbn [snd List.map constant_model model_getCurrentBest].
    rewrite PI_cell_negative_zero_variance. cbn [unit_box_PI PI.par].
    Fdecide. reflexivity.
  - rewrite (PI_run_vector unit_box_PI
               (constant_model [(Fin 5, NZero)] (Fin 0)) x_inside None
               [(Fin 5, NZero)] Hlen x_inside_PI eq_refl).
    cbn [snd List.map constant_model model_getCurrentBest].
    rewrite PI_cell_negative_zero_variance. cbn [unit_box_PI PI.par].
    Fdecide. reflexivity.
  - Fdecide. reflexivity.
Qed.

(** ** LogEI can decrease with the deviation *)

Lemma pdf_ge_on_unit z : -1 <= z <= 0 -> Gauss.pdf (-1) <= Gauss.pdf z.
Proof.
  intros Hz. unfold Gauss.pdf, Rdiv. apply Rmult_le_compat_r.
  - left. apply Rinv_0_lt_compat, Gauss.sqrt_2PI_pos.
  - destruct (Req_dec_T z (-1)) as [-> | Hne]; [right; reflexivity | ].
    left. apply exp_increasing. nra.
Qed.

Lemma cdf_zero_lower : Gauss.pdf (-1) < Gauss.cdf 0.
Proof.
  pose (g := fun t => Gauss.area t - Gauss.pdf (-1) * t).
  assert (H : g (-1) <= g 0).
  { apply (Gauss.deriv_nonneg_incr g (fun t => Gauss.pdf t - Gauss.pdf (-1))).
    - lra.
    - intros c _. unfold g.
      replace (Gauss.pdf c - Gauss.pdf (-1))
        with (Gauss.pdf c - Gauss.pdf (-1) * 1) by ring.
      apply (derivable_pt_lim_minus Gauss.area (fun t => Gauss.pdf (-1) * t)).
      + apply Gauss.area_deriv.
      + apply (derivable_pt_lim_scal id), derivable_pt_lim_id.
    - intros c Hc. pose proof (pdf_ge_on_unit c ltac:(lra)). lra. }
  unfold g in H.
  pose proof (cdf_pos (-1)) as Hpos. unfold Gauss.cdf in *. lra.
Qed.

Lemma exp_half_inv : / 3 < exp (- (1) / 2).
Proof.
  replace (- (1) / 2) with (- (1 / 2)) by field. rewrite exp_Ropp.
  pose proof (exp_pos (1 / 2)) as Hp.
  apply Rinv_lt_contravar; [nra | ].
  pose proof (exp_increasing (1 / 2) 1 ltac:(lra)). pose proof exp_le_3. lra.
Qed.

Lemma x_inside_wide_margin : LogEI.out_of_bounds wide_margin_LogEI x_inside = false.
Proof. unfold LogEI.out_of_bounds, np.any_cmp. simpl. unfold fgt, flt. Rdecide. reflexivity. Qed.

(** With the margin [par = 10], [eta = 0] and [m = -10], raising the
    deviation from [s = 0.1] to [s = 1.1] lowers Expected Improvement,
    hence LogEI. *)
Lemma EI_decreases_wide_margin :
  Gauss.EI 0 (-10) 10 (11 / 10) < Gauss.EI 0 (-10) 10 (1 / 10).
Proof.
  unfold Gauss.EI. cbv zeta.
  set (z1 := (0 - -10) / (1 / 10) - 10).
  set (z2 := (0 - -10) / (11 / 10) - 10).
  assert (Hz1 : 0 <= z1) by (unfold z1; lra).
  pose proof (cdf_mono 0 z1 Hz1) as H0.
  pose proof cdf_zero_lower as Hlow.
  pose proof (cdf_pos z2) as Hc2.
  pose proof (Gauss.pdf_pos z1) as Hp1.
  pose proof (pdf_le_mode z2) as Hp2.
  assert (Hmode : Gauss.pdf 0 = / sqrt (2 * PI)).
  { unfold Gauss.pdf. replace (- (0 * 0) / 2) with 0 by field.
    rewrite exp_0. field. pose proof Gauss.sqrt_2PI_pos. lra. }
  assert (Hm1 : / 3 * / sqrt (2 * PI) < Gauss.pdf (-1)).
  { unfold Gauss.pdf, Rdiv. apply Rmult_lt_compat_r.
    - apply Rinv_0_lt_compat, Gauss.sqrt_2PI_pos.
    - replace (- (-1 * -1) * / 2) with (- (1) / 2) by field. apply exp_half_inv. }
  pose proof (Rinv_0_lt_compat _ Gauss.sqrt_2PI_pos) as HK.
  nra.
Qed.

Lemma LogEI_decreases_in_s_wide_margin :
  LogEI_returns wide_margin_LogEI (constant_model [(Fin (-10), Fin (1 / 100))] (Fin 0))
    x_inside None (Fin (ln (Gauss.EI 0 (-10) 10 (1 / 10)))) /\
  LogEI_returns wide_margin_LogEI (constant_model [(Fin (-10), Fin (121 / 100))] (Fin 0))
    x_inside None (Fin (ln (Gauss.EI 0 (-10) 10 (11 / 10)))) /\
  flt (Fin (ln (Gauss.EI 0 (-10) 10 (11 / 10))))
      (Fin (ln (Gauss.EI 0 (-10) 10 (1 / 10)))) = true.
Proof.
  assert (Hs1 : sqrt (1 / 100) = 1 / 10).
  { replace (1 / 100) with ((1 / 10) * (1 / 10)) by field. apply sqrt_square. lra. }
  assert (Hs2 : sqrt (121 / 100) = 11 / 10).
  { replace (121 / 100) with ((11 / 10) * (11 / 10)) by field. apply sqrt_square. lra. }
  split; [ | split].
  - rewrite <- Hs1.
    rewrite <- (LogEI_cell_pos_variance wide_margin_LogEI 0 (-10) 10 (1 / 100) eq_refl)
      by (rewrite Hs1; lra).
    apply LogEI_returns_cell;
      [exact x_inside_wide_margin | apply constant_model_predicts].
  - rewrite <- Hs2.
    rewrite <- (LogEI_cell_pos_variance wide_margin_LogEI 0 (-10) 10 (121 / 100) eq_refl)
      by (rewrite Hs2; lra).
    apply LogEI_returns_cell;
      [exact x_inside_wide_margin | apply constant_model_predicts].
  - simpl. apply Rltb_true, ln_increasing;
      [apply EI_pos; lra | exact EI_decreases_wide_margin].
Qed.

(** ** PI with the derivative on two-dimensional predictions *)

(** With gradients of the documented shapes the gradient is computed, and
    the call with the derivative ends in the same [UnboundLocalError]. *)
Lemma PI_return_f_unbound_with_gradient :
  run matrix_model (PI.__call__ unit_box_PI x_inside None true) =
    ([Called_predict x_inside None; Called_getCurrentBest;
      Called_predictive_gradients x_inside],
     Raised (UnboundLocalError "return_f")).
Proof.
  unfold PI.__call__. rewrite x_inside_PI.
  change (1 <? List.length x_inside)%nat with false.
  cbn [List.length Nat.ltb Nat.leb predict getCurrentBest predictive_gradients
       bind run matrix_model model_predict model_getCurrentBest
       model_predictive_gradients np.map np.map2 List.map combine fst snd].
  rewrite (np_sqrt_pos 1) by (rewrite sqrt_1; lra). rewrite sqrt_1.
  unfold PI.gradient, PI.broadcast2, PI.broadcast.
  cbn [nth_error or_raise bind List.map np.as_matrix np.map fmul List.length
       Nat.eqb combine fst snd PI.sequence fdiv fsub fadd fneg unit_box_PI PI.par].
  Rdecide.
  cbn [nth_error or_raise bind List.map np.as_matrix np.map fmul List.length
       Nat.eqb combine fst snd PI.sequence fdiv fsub fadd fneg norm.pdf run].
  Rdecide.
  reflexivity.
Qed.

(** * Further properties of the two evaluators *)

(** ** The bounds guard is inclusive and lets [nan] through *)

Lemma flt_not_fle (x y : float64) : flt x y = true -> fle y x = false.
Proof.
  destruct x as [a | | | | ], y as [b | | | | ]; unfold fle; cbn [flt feq];
    try discriminate; try reflexivity;
    Rcases; try discriminate; try reflexivity; lra.
Qed.

Lemma inside_not_outside lower upper X :
  List.length lower = List.length upper ->
  inside lower upper X -> ~ outside lower upper X.
Proof.
  intros Hlen Hin (row & j & x & Hrow & Hx & Hout).
  assert (Hboth : exists l u, nth_error lower j = Some l /\ nth_error upper j = Some u).
  { destruct Hout as [(l & Hl & _) | (u & Hu & _)].
    - destruct (nth_error upper j) as [u | ] eqn:Hu; [eauto | ].
      apply nth_error_None in Hu.
      assert (nth_error lower j <> None) by congruence.
      apply nth_error_Some in H. lia.
    - destruct (nth_error lower j) as [l | ] eqn:Hl; [eauto | ].
      apply nth_error_None in Hl.
      assert (nth_error upper j <> None) by congruence.
      apply nth_error_Some in H. lia. }
  destruct Hboth as (l & u & Hl & Hu).
  destruct (Hin row j x l u Hrow Hx Hl Hu) as [-> | [Hlo Hhi]].
  - destruct Hout as [(l' & _ & H) | (u' & _ & H)].
    + simpl in H. discriminate.
    + unfold fgt in H. destruct u'; simpl in H; discriminate.
  - destruct Hout as [(l' & Hl' & H) | (u' & Hu' & H)].
    + assert (l' = l) by congruence. subst l'.
      apply flt_not_fle in H. congruence.
    + assert (u' = u) by congruence. subst u'.
      unfold fgt in H. apply flt_not_fle in H. congruence.
Qed.

(** X1: a batch whose coordinates all lie within the bounds, the bounds
    themselves included, or are [nan], passes the guard of both evaluators:
    the comparisons are strict and false on [nan]. *)
Theorem guard_is_inclusive (lself : LogEI.t) (pself : PI.t) (X : matrix) :
  (List.length (LogEI.X_lower lself) = List.length (LogEI.X_upper lself) ->
   inside (LogEI.X_lower lself) (LogEI.X_upper lself) X ->
   LogEI.out_of_bounds lself X = false)
  /\
  (List.length (PI.X_lower pself) = List.length (PI.X_upper pself) ->
   inside (PI.X_lower pself) (PI.X_upper pself) X ->
   PI.out_of_bounds pself X = false).
Proof.
  split; intros Hlen Hin.
  - destruct (LogEI.out_of_bounds lself X) eqn:E; [ | reflexivity].
    apply LogEI_out_of_bounds_spec in E.
    now apply inside_not_outside in E.
  - destruct (PI.out_of_bounds pself X) eqn:E; [ | reflexivity].
    apply PI_out_of_bounds_spec in E.
    now apply inside_not_outside in E.
Qed.

Lemma corners_and_nan_inside : inside [Fin 0] [Fin 1] corners_and_nan.
Proof.
  intros row j x l u Hrow Hx Hl Hu.
  destruct j as [ | j]; [ | destruct j; discriminate].
  simpl in Hl, Hu. injection Hl as <-. injection Hu as <-.
  simpl in Hrow. destruct Hrow as [<- | [<- | [<- | []]]];
    simpl in Hx; injection Hx as <-.
  - right. unfold fle, flt, feq. Rdecide. split; reflexivity.
  - right. unfold fle, flt, feq. Rdecide. split; reflexivity.
  - left. reflexivity.
Qed.

Lemma guard_is_inclusive_witness :
  LogEI.out_of_bounds unit_box_LogEI corners_and_nan = false /\
  PI.out_of_bounds unit_box_PI corners_and_nan = false.
Proof.
  destruct (guard_is_inclusive unit_box_LogEI unit_box_PI corners_and_nan)
    as [HL HP].
  exact (conj (HL eq_refl corners_and_nan_inside)
              (HP eq_refl corners_and_nan_inside)).
Defined.

(** ** The calls made to the model *)

Lemma asks_nothing_bind {A B : Type} (p : prog A) (k : A -> prog B) :
  asks_nothing p -> (forall a, asks_nothing (k a)) -> asks_nothing (bind p k).
Proof. destruct p; simpl; intros Hp Hk; try contradiction; auto. Qed.

Lemma asks_nothing_or_raise {A : Type} (e : exn) (o : option A) :
  asks_nothing (or_raise e o).
Proof. destruct o; exact I. Qed.

Lemma asks_nothing_run {A : Type} (mdl : Model) (p : prog A) :
  asks_nothing p -> fst (run mdl p) = [].
Proof. destruct p; simpl; intros H; try contradiction; reflexivity. Qed.

Lemma fst_run_Predict {A : Type} (mdl : Model) X Z (k : stats -> prog A) :
  fst (run mdl (Predict X Z k)) =
  Called_predict X Z :: fst (run mdl (k (model_predict mdl X Z))).
Proof. cbn [run]. now destruct (run mdl (k (model_predict mdl X Z))). Qed.

Lemma fst_run_GetCurrentBest {A : Type} (mdl : Model) (k : float64 -> prog A) :
  fst (run mdl (GetCurrentBest k)) =
  Called_getCurrentBest :: fst (run mdl (k (model_getCurrentBest mdl))).
Proof. cbn [run]. now destruct (run mdl (k (model_getCurrentBest mdl))). Qed.

Lemma fst_run_PredictiveGradients {A : Type} (mdl : Model) X
    (k : gradients -> prog A) :
  fst (run mdl (PredictiveGradients X k)) =
  Called_predictive_gradients X ::
    fst (run mdl (k (model_predictive_gradients mdl X))).
Proof. cbn [run]. now destruct (run mdl (k (model_predictive_gradients mdl X))). Qed.

Lemma LogEI_loop_asks_nothing self eta m s z n :
  forall i log_ei, asks_nothing (LogEI.loop self eta m s z i n log_ei).
Proof.
  induction n as [ | n IH]; intros i log_ei; cbn [LogEI.loop]; [exact I | ].
  repeat (apply asks_nothing_bind; [apply asks_nothing_or_raise | intros ?]).
  apply IH.
Qed.

Lemma sequence_asks_nothing {A : Type} (l : list (prog A)) :
  Forall asks_nothing l -> asks_nothing (PI.sequence l).
Proof.
  induction 1 as [ | p ps Hp _ IH]; cbn [PI.sequence]; [exact I | ].
  apply asks_nothing_bind; [exact Hp | intros x].
  apply asks_nothing_bind; [exact IH | intros xs; exact I].
Qed.

Lemma broadcast_asks_nothing {A B C : Type} (f : A -> B -> prog C) la lb :
  (forall a b, asks_nothing (f a b)) -> asks_nothing (PI.broadcast f la lb).
Proof.
  intros Hf. unfold PI.broadcast.
  assert (Hseq : forall (T : Type) (g : T -> prog C) (l : list T),
             (forall t, asks_nothing (g t)) ->
             asks_nothing (PI.sequence (List.map g l))).
  { intros T g l Hg. apply sequence_asks_nothing, Forall_forall.
    intros p Hp. apply in_map_iff in Hp. destruct Hp as (t & <- & _). apply Hg. }
  destruct (List.length la =? List.length lb)%nat.
  - apply Hseq. intros p. apply Hf.
  - destruct la as [ | a [ | a' la]], lb as [ | b [ | b' lb]];
      try exact I; apply Hseq; intros t; apply Hf.
Qed.

Lemma broadcast2_asks_nothing op a b : asks_nothing (PI.broadcast2 op a b).
Proof.
  apply broadcast_asks_nothing. intros r1 r2.
  apply broadcast_asks_nothing. intros x y. exact I.
Qed.

Lemma gradient_asks_nothing g s z : asks_nothing (PI.gradient g s z).
Proof.
  unfold PI.gradient. destruct g as [dmdx ds2dx].
  repeat (apply asks_nothing_bind;
          [first [apply asks_nothing_or_raise | apply broadcast2_asks_nothing]
          | intros ?]).
  exact I.
Qed.

(** X2: in bounds, LogEI asks the model for [predict] and then for
    [getCurrentBest], once each and nothing else; PI does the same and, only
    when the derivative is requested, asks for [predictive_gradients] after
    them.  This holds for every model and whatever the call then returns or
    raises. *)
Theorem model_call_sequence (lself : LogEI.t) (pself : PI.t) (mdl : Model)
    (X : matrix) (Z : features) :
  (LogEI.out_of_bounds lself X = false ->
   fst (run mdl (LogEI.__call__ lself X Z false)) =
     [Called_predict X Z; Called_getCurrentBest])
  /\
  ((List.length X <= 1)%nat ->
   PI.out_of_bounds pself X = false ->
   fst (run mdl (PI.__call__ pself X Z false)) =
     [Called_predict X Z; Called_getCurrentBest] /\
   fst (run mdl (PI.__call__ pself X Z true)) =
     [Called_predict X Z; Called_getCurrentBest;
      Called_predictive_gradients X]).
Proof.
  split.
  - intros Hin. unfold LogEI.__call__. rewrite Hin.
    cbn [predict getCurrentBest bind].
    rewrite fst_run_Predict, fst_run_GetCurrentBest.
    rewrite asks_nothing_run by apply LogEI_loop_asks_nothing. reflexivity.
  - intros Hlen Hin.
    assert (Hk : (1 <? List.length X)%nat = false) by (apply Nat.ltb_ge; lia).
    unfold PI.__call__. rewrite Hk, Hin.
    cbn [predict getCurrentBest predictive_gradients bind]. split.
    + rewrite fst_run_Predict, fst_run_GetCurrentBest.
      rewrite asks_nothing_run; [reflexivity | ].
      apply asks_nothing_bind; [apply asks_nothing_or_raise | intros ?; exact I].
    + rewrite fst_run_Predict, fst_run_GetCurrentBest, fst_run_PredictiveGradients.
      rewrite asks_nothing_run; [reflexivity | ].
      apply asks_nothing_bind; [apply gradient_asks_nothing | intros df].
      apply asks_nothing_bind; [apply asks_nothing_or_raise | intros ?; exact I].
Qed.

Lemma model_call_sequence_witness :
  fst (run matrix_model (LogEI.__call__ unit_box_LogEI x_inside None false)) =
    [Called_predict x_inside None; Called_getCurrentBest]
  /\
  fst (run matrix_model (PI.__call__ unit_box_PI x_inside None true)) =
    [Called_predict x_inside None; Called_getCurrentBest;
     Called_predictive_gradients x_inside].
Proof.
  destruct (model_call_sequence unit_box_LogEI unit_box_PI matrix_model
              x_inside None) as [HL HP].
  assert (Hlen : (List.length x_inside <= 1)%nat) by (simpl; lia).
  exact (conj (HL x_inside_LogEI) (proj2 (HP Hlen x_inside_PI))).
Defined.

(** ** LogEI over a batch *)

(** X3: on a vector of predictions, of any binary64 values, LogEI never
    raises: it returns one row of one cell per prediction, in the order of
    the predictions, and row [i] depends on prediction [i] and the incumbent
    only.  PI returns one row holding one cell per prediction. *)
Theorem batch_rows (lself : LogEI.t) (pself : PI.t) (mdl : Model)
    (X : matrix) (Z : features) (l : list (float64 * float64)) :
  model_predict mdl X Z = Arr1 l ->
  (LogEI.out_of_bounds lself X = false ->
   exists log_ei : matrix,
     snd (run mdl (LogEI.__call__ lself X Z false)) = Returned log_ei /\
     List.length log_ei = List.length l /\
     forall i mv, nth_error l i = Some mv ->
       nth_error log_ei i = Some [LogEI_cell lself (model_getCurrentBest mdl) mv])
  /\
  ((List.length X <= 1)%nat ->
   PI.out_of_bounds pself X = false ->
   exists f : list float64,
     snd (run mdl (PI.__call__ pself X Z false)) = Returned (PI.Score [f]) /\
     List.length f = List.length l /\
     forall i mv, nth_error l i = Some mv ->
       nth_error f i = Some (PI_cell pself (model_getCurrentBest mdl) mv)).
Proof.
  intros Hp. split.
  - intros Hin. rewrite (LogEI_run_vector lself mdl X Z l Hin Hp). cbn [snd].
    eexists. split; [reflexivity | ]. split; [apply length_map | ].
    intros i mv Hnth. now rewrite nth_error_map, Hnth.
  - intros Hlen Hin. rewrite (PI_run_vector pself mdl X Z l Hlen Hin Hp).
    cbn [snd]. eexists. split; [reflexivity | ]. split; [apply length_map | ].
    intros i mv Hnth. now rewrite nth_error_map, Hnth.
Qed.

Lemma batch_rows_witness :
  exists log_ei : matrix,
    snd (run (constant_model [(Fin (-5), Fin 0); (NaN, PInf); (Fin 5, Fin 1)] (Fin 0))
             (LogEI.__call__ unit_box_LogEI batch_inside None false))
      = Returned log_ei /\
    List.length log_ei = 3%nat.
Proof.
  destruct (batch_rows unit_box_LogEI unit_box_PI
              (constant_model [(Fin (-5), Fin 0); (NaN, PInf); (Fin 5, Fin 1)] (Fin 0))
              batch_inside None [(Fin (-5), Fin 0); (NaN, PInf); (Fin 5, Fin 1)]
              eq_refl) as [HL _].
  destruct (HL batch_inside_LogEI) as (log_ei & Hrun & Hlen & _).
  exists log_ei. exact (conj Hrun Hlen).
Defined.

(** ** The branches of the LogEI loop *)

(** X6: where the coefficient [eta - m[i] - par*sigma] is exactly zero
    (the first branch of the loop), LogEI stores
    [log(sigma) - log(sqrt(2 pi))] when [sigma > 0], because [z[i]] is then
    zero, and [-inf] when the variance is zero. *)
Theorem LogEI_vanishing_coefficient (self : LogEI.t) (mdl : Model)
    (X : matrix) (Z : features) (l : list (float64 * float64)) (i : nat)
    (e m p v : R) :
  LogEI.par self = Fin p ->
  LogEI.out_of_bounds self X = false ->
  model_predict mdl X Z = Arr1 l ->
  model_getCurrentBest mdl = Fin e ->
  nth_error l i = Some (Fin m, Fin v) ->
  0 <= v ->
  e - m - p * sqrt v = 0 ->
  exists log_ei : matrix,
    snd (run mdl (LogEI.__call__ self X Z false)) = Returned log_ei /\
    nth_error log_ei i =
      Some [if Rlt_dec 0 v then Fin (ln (sqrt v) - ln (sqrt (2 * PI))) else NInf].
Proof.
  intros Hpar Hin Hp He Hnth Hv Hc.
  rewrite (LogEI_run_vector self mdl X Z l Hin Hp), He. cbn [snd].
  eexists. split; [reflexivity | ].
  rewrite nth_error_map, Hnth. cbn [option_map]. do 2 f_equal.
  destruct (Rlt_dec 0 v) as [Hpos | Hzero].
  - assert (Hs : 0 < sqrt v) by now apply sqrt_lt_R0.
    rewrite (LogEI_cell_pos_variance self e m p v Hpar Hs). f_equal.
    unfold Gauss.EI. cbv zeta. rewrite Hc, Rmult_0_l, Rplus_0_l.
    replace ((e - m) / sqrt v - p) with 0 by (field_simplify_eq; lra).
    rewrite ln_mult by (exact Hs || apply Gauss.pdf_pos).
    rewrite <- exp_logpdf, ln_exp. unfold Gauss.logpdf.
    replace (- (0 * 0) / 2) with 0 by field. ring.
  - assert (v = 0) by lra. subst v.
    rewrite (LogEI_cell_zero_variance_finite self e m p Hpar).
    rewrite sqrt_0 in Hc. destruct (Rlt_dec m e); [lra | reflexivity].
Qed.

Lemma LogEI_vanishing_coefficient_witness :
  exists log_ei : matrix,
    snd (run (constant_model [(Fin 0, Fin 1); (Fin 0, Fin 0)] (Fin 0))
             (LogEI.__call__
                {| LogEI.par := Fin 0; LogEI.X_lower := [Fin 0];
                   LogEI.X_upper := [Fin 1] |} batch_inside None false))
      = Returned log_ei /\
    nth_error log_ei 1 = Some [NInf].
Proof.
  assert (Hin : LogEI.out_of_bounds
                  {| LogEI.par := Fin 0; LogEI.X_lower := [Fin 0];
                     LogEI.X_upper := [Fin 1] |} batch_inside = false)
    by exact batch_inside_LogEI.
  destruct (LogEI_vanishing_coefficient
              {| LogEI.par := Fin 0; LogEI.X_lower := [Fin 0];
                 LogEI.X_upper := [Fin 1] |}
              (constant_model [(Fin 0, Fin 1); (Fin 0, Fin 0)] (Fin 0))
              batch_inside None [(Fin 0, Fin 1); (Fin 0, Fin 0)] 1 0 0 0 0
              eq_refl Hin eq_refl eq_refl eq_refl
              ltac:(lra) ltac:(rewrite sqrt_0; lra))
    as (log_ei & Hrun & Hcell).
  exists log_ei. split; [exact Hrun | ].
  rewrite Hcell. destruct (Rlt_dec 0 0); [lra | reflexivity].
Defined.

(** X7: at zero variance the margin has no effect on LogEI: for every
    finite [par], the entry is [log(eta - m)] when [m < eta] and [-inf]
    otherwise, the case [m = eta] included. *)
Theorem LogEI_zero_variance_ignores_par (self : LogEI.t) (mdl : Model)
    (X : matrix) (Z : features) (l : list (float64 * float64)) (i : nat)
    (e m p : R) :
  LogEI.par self = Fin p ->
  LogEI.out_of_bounds self X = false ->
  model_predict mdl X Z = Arr1 l ->
  model_getCurrentBest mdl = Fin e ->
  nth_error l i = Some (Fin m, Fin 0) ->
  exists log_ei : matrix,
    snd (run mdl (LogEI.__call__ self X Z false)) = Returned log_ei /\
    nth_error log_ei i = Some [if Rlt_dec m e then Fin (ln (e - m)) else NInf].
Proof.
  intros Hpar Hin Hp He Hnth.
  rewrite (LogEI_run_vector self mdl X Z l Hin Hp), He. cbn [snd].
  eexists. split; [reflexivity | ].
  rewrite nth_error_map, Hnth. cbn [option_map]. do 2 f_equal.
  exact (LogEI_cell_zero_variance_finite self e m p Hpar).
Qed.

Lemma LogEI_zero_variance_ignores_par_witness :
  exists log_ei : matrix,
    snd (run (constant_model [(Fin (-10), Fin 0)] (Fin 0))
             (LogEI.__call__ wide_margin_LogEI x_inside None false))
      = Returned log_ei /\
    nth_error log_ei 0 = Some [Fin (ln (0 - -10))].
Proof.
  destruct (LogEI_zero_variance_ignores_par wide_margin_LogEI
              (constant_model [(Fin (-10), Fin 0)] (Fin 0)) x_inside None
              [(Fin (-10), Fin 0)] 0 0 (-10) 10
              eq_refl x_inside_wide_margin eq_refl eq_refl eq_refl)
    as (log_ei & Hrun & Hcell).
  exists log_ei. split; [exact Hrun | ].
  rewrite Hcell. destruct (Rlt_dec (-10) 0); [reflexivity | lra].
Defined.

Lemma negative_variance_cells (lself : LogEI.t) (pself : PI.t)
    (eta mu : float64) (v : R) :
  v < 0 ->
  LogEI_cell lself eta (mu, Fin v) = NaN /\
  PI_cell pself eta (mu, Fin v) = NaN.
Proof.
  intros Hv.
  assert (Hs : np.sqrt (Fin v) = NaN) by (unfold np.sqrt; now rewrite Rltb_true).
  split.
  - unfold LogEI_cell, LogEI.log_ei_at. cbn [fst snd]. rewrite Hs.
    assert (Hm : fmul (LogEI.par lself) NaN = NaN)
      by (destruct (LogEI.par lself); reflexivity).
    assert (Hsub : forall a, fsub a NaN = NaN) by (intros [ | | | | ]; reflexivity).
    assert (Hadd : forall a, fadd a NaN = NaN) by (intros [ | | | | ]; reflexivity).
    rewrite Hm, !Hsub, Hadd. cbn [py_abs fabs feq np.log fadd fge fle flt orb].
    destruct mu; reflexivity.
  - unfold PI_cell. cbn [fst snd]. rewrite Hs.
    destruct (fsub (fsub eta mu) (PI.par pself)); reflexivity.
Qed.

(** X9: a negative variance is not an error: its square root is [nan], and
    the entry of LogEI and the entry of PI for that candidate are [nan],
    whatever the mean, the incumbent and the margin are. *)
Theorem negative_variance_is_nan (lself : LogEI.t) (pself : PI.t)
    (mdl : Model) (X : matrix) (Z : features)
    (l : list (float64 * float64)) (i : nat) (mu : float64) (v : R) :
  model_predict mdl X Z = Arr1 l ->
  nth_error l i = Some (mu, Fin v) ->
  v < 0 ->
  (LogEI.out_of_bounds lself X = false ->
   exists log_ei : matrix,
     snd (run mdl (LogEI.__call__ lself X Z false)) = Returned log_ei /\
     nth_error log_ei i = Some [NaN])
  /\
  ((List.length X <= 1)%nat ->
   PI.out_of_bounds pself X = false ->
   exists f : list float64,
     snd (run mdl (PI.__call__ pself X Z false)) = Returned (PI.Score [f]) /\
     nth_error f i = Some NaN).
Proof.
  intros Hp Hnth Hv.
  destruct (negative_variance_cells lself pself (model_getCurrentBest mdl) mu v Hv)
    as [HL HP].
  split.
  - intros Hin. rewrite (LogEI_run_vector lself mdl X Z l Hin Hp). cbn [snd].
    eexists. split; [reflexivity | ].
    rewrite nth_error_map, Hnth. cbn [option_map]. now rewrite HL.
  - intros Hlen Hin. rewrite (PI_run_vector pself mdl X Z l Hlen Hin Hp).
    cbn [snd]. eexists. split; [reflexivity | ].
    rewrite nth_error_map, Hnth. cbn [option_map]. now rewrite HP.
Qed.

Lemma negative_variance_is_nan_witness :
  (exists log_ei : matrix,
     snd (run (constant_model [(Fin 0, Fin (-1))] (Fin 0))
              (LogEI.__call__ unit_box_LogEI x_inside None false))
       = Returned log_ei /\
     nth_error log_ei 0 = Some [NaN])
  /\
  (exists f : list float64,
     snd (run (constant_model [(Fin 0, Fin (-1))] (Fin 0))
              (PI.__call__ unit_box_PI x_inside None false))
       = Returned (PI.Score [f]) /\
     nth_error f 0 = Some NaN).
Proof.
  assert (Hv : -1 < 0) by lra.
  assert (Hlen : (List.length x_inside <= 1)%nat) by (simpl; lia).
  destruct (negative_variance_is_nan unit_box_LogEI unit_box_PI
              (constant_model [(Fin 0, Fin (-1))] (Fin 0)) x_inside None
              [(Fin 0, Fin (-1))] 0 (Fin 0) (-1) eq_refl eq_refl Hv)
    as [HL HP].
  exact (conj (HL x_inside_LogEI) (HP Hlen x_inside_PI)).
Defined.

(** ** LogEI on predictions that are not a vector *)

Lemma concat_singletons {A B : Type} (f : A -> B) (l : list A) :
  List.length (concat (List.map (fun x => [f x]) l)) = List.length l.
Proof. induction l as [ | x l IH]; simpl; [reflexivity | now rewrite IH]. Qed.

Lemma LogEI_loop_column (self : LogEI.t) (eta : float64)
    (l : list (float64 * float64)) :
  let m := Arr2 (List.map (fun mv => [fst mv]) l) in
  let s := Arr2 (List.map (fun mv => [np.sqrt (snd mv)]) l) in
  let z := Arr2 (List.map
                   (fun mv => [fsub (fdiv (fsub eta (fst mv)) (np.sqrt (snd mv)))
                                    (LogEI.par self)]) l) in
  forall (n i : nat) (log_ei : matrix),
    (i + n)%nat = List.length l ->
    List.length log_ei = List.length l ->
    LogEI.loop self eta m s z i n log_ei =
      Ret (firstn i log_ei ++ List.map (fun mv => [LogEI_cell self eta mv]) (skipn i l)).
Proof.
  intros m s z. induction n as [ | n IH]; intros i log_ei Hin Hlen.
  - simpl. rewrite Nat.add_0_r in Hin. subst i.
    rewrite skipn_all, <- Hlen, firstn_all, app_nil_r. reflexivity.
  - assert (Hi : (i < List.length l)%nat) by lia.
    destruct (nth_error l i) as [mv | ] eqn:Hnth;
      [ | apply nth_error_None in Hnth; lia].
    unfold z, s, m in *. cbn [LogEI.loop np.getitem].
    rewrite !nth_error_map, Hnth.
    cbn [option_map or_raise bind np.item].
    rewrite IH; [ | lia | rewrite setitem_length; exact Hlen].
    rewrite firstn_setitem by lia.
    rewrite (skipn_nth_error l i mv Hnth). cbn [List.map].
    rewrite <- app_assoc. reflexivity.
Qed.

(** X10: LogEI accepts predictions of shape (k, 1): when [predict] returns
    the column of the same values instead of the vector, the call returns
    the same array, after the same two model calls. *)
Theorem LogEI_column_predictions (self : LogEI.t) (mdl1 mdl2 : Model)
    (X : matrix) (Z : features) (l : list (float64 * float64)) :
  LogEI.out_of_bounds self X = false ->
  model_predict mdl1 X Z = Arr1 l ->
  model_predict mdl2 X Z = Arr2 (List.map (fun mv => [mv]) l) ->
  model_getCurrentBest mdl2 = model_getCurrentBest mdl1 ->
  run mdl2 (LogEI.__call__ self X Z false) =
  run mdl1 (LogEI.__call__ self X Z false).
Proof.
  intros Hin Hp1 Hp2 Heta.
  rewrite (LogEI_run_vector self mdl1 X Z l Hin Hp1).
  unfold LogEI.__call__. rewrite Hin.
  cbn [predict getCurrentBest bind run]. rewrite Hp2, Heta.
  cbn [np.map np.map2 np.size].
  rewrite !map_map, combine_map_same, map_map. cbn [List.map fst snd combine].
  rewrite concat_singletons.
  rewrite (LogEI_loop_column self (model_getCurrentBest mdl1) l
             (List.length l) 0 (np.zeros_col (List.length l))).
  - reflexivity.
  - reflexivity.
  - unfold np.zeros_col. now rewrite repeat_length.
Qed.

Lemma LogEI_column_predictions_witness :
  run (column_model [(Fin 0, Fin 1); (Fin 5, Fin 0)] (Fin 0))
      (LogEI.__call__ unit_box_LogEI batch_inside None false) =
  run (constant_model [(Fin 0, Fin 1); (Fin 5, Fin 0)] (Fin 0))
      (LogEI.__call__ unit_box_LogEI batch_inside None false).
Proof.
  exact (LogEI_column_predictions unit_box_LogEI
           (constant_model [(Fin 0, Fin 1); (Fin 5, Fin 0)] (Fin 0))
           (column_model [(Fin 0, Fin 1); (Fin 5, Fin 0)] (Fin 0))
           batch_inside None [(Fin 0, Fin 1); (Fin 5, Fin 0)]
           batch_inside_LogEI eq_refl eq_refl eq_refl).
Defined.

(** X11: when [predict] returns a two-dimensional array whose first row
    holds two values or more, LogEI raises [ValueError] at the first test of
    the loop (an array of several elements has no truth value), after the
    two model calls. *)
Theorem LogEI_wide_predictions_raise (self : LogEI.t) (mdl : Model)
    (X : matrix) (Z : features)
    (a b : float64 * float64) (r : list (float64 * float64))
    (rows : list (list (float64 * float64))) :
  LogEI.out_of_bounds self X = false ->
  model_predict mdl X Z = Arr2 ((a :: b :: r) :: rows) ->
  run mdl (LogEI.__call__ self X Z false) =
    ([Called_predict X Z; Called_getCurrentBest], Raised ValueError).
Proof.
  intros Hin Hp. unfold LogEI.__call__. rewrite Hin.
  cbn [predict getCurrentBest bind run]. rewrite Hp.
  cbn [np.map np.map2 np.size List.map concat app List.length combine fst snd].
  cbn [LogEI.loop np.getitem nth_error or_raise bind np.item run].
  reflexivity.
Qed.

Lemma LogEI_wide_predictions_raise_witness :
  run wide_model (LogEI.__call__ unit_box_LogEI x_inside None false) =
    ([Called_predict x_inside None; Called_getCurrentBest], Raised ValueError).
Proof.
  exact (LogEI_wide_predictions_raise unit_box_LogEI wide_model x_inside None
           (Fin 0, Fin 1) (Fin 1, Fin 1) [] [] x_inside_LogEI eq_refl).
Defined.

(** ** The gradient of PI *)

Lemma sequence_map_Ret {A B : Type} (g : A -> B) (l : list A) :
  PI.sequence (List.map (fun a => Ret (g a)) l) = Ret (List.map g l).
Proof.
  induction l as [ | a l IH]; cbn [List.map PI.sequence]; [reflexivity | ].
  rewrite IH. reflexivity.
Qed.

Lemma broadcast_right_one {A B C : Type} (f : A -> B -> prog C) la b :
  PI.broadcast f la [b] = PI.sequence (List.map (fun a => f a b) la).
Proof. destruct la as [ | a [ | a' la]]; reflexivity. Qed.

Lemma broadcast_left_one {A B C : Type} (f : A -> B -> prog C) a lb :
  PI.broadcast f [a] lb = PI.sequence (List.map (f a) lb).
Proof. destruct lb as [ | b [ | b' lb]]; reflexivity. Qed.

Lemma broadcast_same_length {A B C : Type} (f : A -> B -> prog C) la lb :
  List.length la = List.length lb ->
  PI.broadcast f la lb =
  PI.sequence (List.map (fun p => f (fst p) (snd p)) (combine la lb)).
Proof. intros H. unfold PI.broadcast. now rewrite H, Nat.eqb_refl. Qed.

Lemma combine_map_both {A B C D : Type} (f : A -> C) (g : B -> D) la lb :
  combine (List.map f la) (List.map g lb) =
  List.map (fun p => (f (fst p), g (snd p))) (combine la lb).
Proof.
  revert lb. induction la as [ | a la IH]; intros [ | b lb]; simpl;
    try reflexivity. now rewrite IH.
Qed.

Lemma transpose_column {A : Type} (f : A -> float64) (l : list A) :
  l <> [] -> np.transpose (List.map (fun x => [f x]) l) = [List.map f l].
Proof.
  intros Hl. destruct l as [ | x l]; [contradiction | ].
  unfold np.transpose, np.ncols. cbn [List.map hd List.length seq].
  rewrite map_map. reflexivity.
Qed.

Lemma PI_gradient_single (s z : float64) (dm dv : list float64)
    (rest1 : list matrix) (rest2 : matrix) :
  List.length dm = List.length dv ->
  dm <> [] ->
  PI.gradient (List.map (fun x => [x]) dm :: rest1, dv :: rest2)
              (Arr1 [s]) (Arr1 [z]) =
  Ret [List.map (PI_gradient_entry s z) (combine dm dv)].
Proof.
  intros Hlen Hne. unfold PI.gradient, PI.broadcast2.
  cbn [nth_error or_raise bind np.map np.as_matrix List.map np.map2 combine
       fst snd].
  rewrite broadcast_right_one, map_map.
  cbn [PI.broadcast List.length Nat.eqb combine List.map PI.sequence bind fst snd].
  rewrite sequence_map_Ret. cbn [bind].
  rewrite broadcast_right_one, map_map.
  cbn [PI.broadcast List.length Nat.eqb combine List.map PI.sequence bind fst snd].
  rewrite sequence_map_Ret. cbn [bind].
  rewrite broadcast_same_length by (now rewrite !length_map).
  rewrite combine_map_both, map_map.
  cbn [PI.broadcast List.length Nat.eqb combine List.map PI.sequence bind fst snd].
  rewrite sequence_map_Ret. cbn [bind].
  rewrite broadcast_left_one, map_map.
  cbn [PI.broadcast List.length Nat.eqb combine List.map PI.sequence bind fst snd].
  rewrite sequence_map_Ret. cbn [bind].
  rewrite transpose_column.
  - reflexivity.
  - destruct dm, dv; simpl in *; try discriminate; congruence.
Qed.

Lemma PI_run_with_gradient (self : PI.t) (mdl : Model) (X : matrix)
    (Z : features) (mu v : float64) (dm dv : list float64)
    (rest1 : list matrix) (rest2 : matrix) :
  (List.length X <= 1)%nat ->
  PI.out_of_bounds self X = false ->
  model_predict mdl X Z = Arr1 [(mu, v)] ->
  model_predictive_gradients mdl X =
    (List.map (fun x => [x]) dm :: rest1, dv :: rest2) ->
  List.length dm = List.length dv ->
  dm <> [] ->
  let s := np.sqrt v in
  let z := fdiv (fsub (fsub (model_getCurrentBest mdl) mu) (PI.par self)) s in
  run mdl (PI.__call__ self X Z true) =
    ([Called_predict X Z; Called_getCurrentBest; Called_predictive_gradients X],
     Returned (PI.ScoreGrad [[norm.cdf z]]
                 [[List.map (PI_gradient_entry s z) (combine dm dv)]])).
Proof.
  intros Hlen Hin Hp Hg Hd Hne s z.
  assert (Hk : (1 <? List.length X)%nat = false) by (apply Nat.ltb_ge; lia).
  unfold PI.__call__. rewrite Hk, Hin.
  cbn [predict getCurrentBest predictive_gradients bind run]. rewrite Hp, Hg.
  cbn [np.map np.map2 List.map combine fst snd].
  fold s. fold z.
  rewrite (PI_gradient_single s z dm dv rest1 rest2 Hd Hne).
  reflexivity.
Qed.

(** X13: for a single in-bounds candidate in [D >= 1] dimensions, with
    gradients of shapes (N, D, 1) and (N, D), the call with the derivative
    makes the three model calls in order and returns the score
    [[[cdf(z)]]] with a gradient of shape (1, 1, D) whose coordinate [d] is
    [-(-pdf(z)/s) * (dm[d] + dv[d]/(2*s) * z)], on every binary64 value. *)
Theorem PI_gradient_closed_form (self : PI.t) (mdl : Model) (X : matrix)
    (Z : features) (mu v : float64) (dm dv : list float64)
    (rest1 : list matrix) (rest2 : matrix) :
  (List.length X <= 1)%nat ->
  PI.out_of_bounds self X = false ->
  model_predict mdl X Z = Arr1 [(mu, v)] ->
  model_predictive_gradients mdl X =
    (List.map (fun x => [x]) dm :: rest1, dv :: rest2) ->
  List.length dm = List.length dv ->
  dm <> [] ->
  let s := np.sqrt v in
  let z := fdiv (fsub (fsub (model_getCurrentBest mdl) mu) (PI.par self)) s in
  run mdl (PI.__call__ self X Z true) =
    ([Called_predict X Z; Called_getCurrentBest; Called_predictive_gradients X],
     Returned (PI.ScoreGrad [[norm.cdf z]]
                 [[List.map (PI_gradient_entry s z) (combine dm dv)]])).
Proof.
  intros Hlen Hin Hp Hg Hd Hne.
  exact (PI_run_with_gradient self mdl X Z mu v dm dv rest1 rest2
           Hlen Hin Hp Hg Hd Hne).
Qed.

Lemma x_in_square_PI : PI.out_of_bounds unit_square_PI x_in_square = false.
Proof. unfold PI.out_of_bounds, np.any_cmp. simpl. unfold fgt, flt. Rdecide. reflexivity. Qed.

Lemma PI_gradient_closed_form_witness :
  exists (f : float64) (g1 g2 : float64),
    run plane_model (PI.__call__ unit_square_PI x_in_square None true) =
      ([Called_predict x_in_square None; Called_getCurrentBest;
        Called_predictive_gradients x_in_square],
       Returned (PI.ScoreGrad [[f]] [[[g1; g2]]])).
Proof.
  assert (Hlen : (List.length x_in_square <= 1)%nat) by (simpl; lia).
  assert (Hne : [Fin 1; Fin 2] <> []) by discriminate.
  pose proof (PI_gradient_closed_form unit_square_PI plane_model x_in_square None
                (Fin 0) (Fin 1) [Fin 1; Fin 2] [Fin 0; Fin 0] [] []
                Hlen x_in_square_PI eq_refl eq_refl eq_refl Hne) as H.
  cbv zeta in H. cbn [combine List.map] in H.
  eexists. eexists. eexists. exact H.
Defined.

(** X14: at zero variance the gradient of PI is [nan] in every coordinate,
    whatever the mean, the incumbent, the margin and the model's gradients
    are: the factor [pdf(z)/s] is [0/0] or [nan/0]. *)
Theorem PI_gradient_zero_variance (self : PI.t) (mdl : Model) (X : matrix)
    (Z : features) (mu : float64) (dm dv : list float64)
    (rest1 : list matrix) (rest2 : matrix) :
  (List.length X <= 1)%nat ->
  PI.out_of_bounds self X = false ->
  model_predict mdl X Z = Arr1 [(mu, Fin 0)] ->
  model_predictive_gradients mdl X =
    (List.map (fun x => [x]) dm :: rest1, dv :: rest2) ->
  List.length dm = List.length dv ->
  dm <> [] ->
  exists f : float64,
    snd (run mdl (PI.__call__ self X Z true)) =
      Returned (PI.ScoreGrad [[f]] [[repeat NaN (List.length dm)]]).
Proof.
  intros Hlen Hin Hp Hg Hd Hne.
  rewrite (PI_run_with_gradient self mdl X Z mu (Fin 0) dm dv rest1 rest2
             Hlen Hin Hp Hg Hd Hne).
  cbn [snd]. eexists. do 4 f_equal.
  rewrite sqrt_zero.
  set (d0 := fsub (fsub (model_getCurrentBest mdl) mu) (PI.par self)).
  assert (Hcoef : fneg (fdiv (fneg (norm.pdf (fdiv d0 (Fin 0)))) (Fin 0)) = NaN).
  { destruct d0 as [x | | | | ];
      repeat (cbn [fdiv norm.pdf fneg]; Rcases); try reflexivity; lra. }
  assert (Hentry : forall d, PI_gradient_entry (Fin 0) (fdiv d0 (Fin 0)) d = NaN).
  { intros d. unfold PI_gradient_entry. rewrite Hcoef.
    destruct (fadd _ _); reflexivity. }
  rewrite (map_ext _ (fun _ => NaN) Hentry), map_const, length_combine, <- Hd.
  now rewrite Nat.min_id.
Qed.

Lemma PI_gradient_zero_variance_witness :
  exists f : float64,
    snd (run flat_plane_model (PI.__call__ unit_square_PI x_in_square None true)) =
      Returned (PI.ScoreGrad [[f]] [[[NaN; NaN]]]).
Proof.
  assert (Hlen : (List.length x_in_square <= 1)%nat) by (simpl; lia).
  assert (Hne : [Fin 1; Fin 2] <> []) by discriminate.
  exact (PI_gradient_zero_variance unit_square_PI flat_plane_model x_in_square
           None (Fin 0) [Fin 1; Fin 2] [Fin 0; Fin 0] [] []
           Hlen x_in_square_PI eq_refl eq_refl eq_refl Hne).
Defined.

(** The same at the variance [-0.0]: the factor is again [0/0] or
    [nan/0]. *)
Lemma PI_gradient_negative_zero_variance (self : PI.t) (mdl : Model)
    (X : matrix) (Z : features) (mu : float64) (dm dv : list float64)
    (rest1 : list matrix) (rest2 : matrix) :
  (List.length X <= 1)%nat ->
  PI.out_of_bounds self X = false ->
  model_predict mdl X Z = Arr1 [(mu, NZero)] ->
  model_predictive_gradients mdl X =
    (List.map (fun x => [x]) dm :: rest1, dv :: rest2) ->
  List.length dm = List.length dv ->
  dm <> [] ->
  exists f : float64,
    snd (run mdl (PI.__call__ self X Z true)) =
      Returned (PI.ScoreGrad [[f]] [[repeat NaN (List.length dm)]]).
Proof.
  intros Hlen Hin Hp Hg Hd Hne.
  rewrite (PI_run_with_gradient self mdl X Z mu NZero dm dv rest1 rest2
             Hlen Hin Hp Hg Hd Hne).
  cbn [snd np.sqrt]. eexists. do 4 f_equal.
  set (d0 := fsub (fsub (model_getCurrentBest mdl) mu) (PI.par self)).
  assert (Hcoef : fneg (fdiv (fneg (norm.pdf (fdiv d0 NZero))) NZero) = NaN).
  { destruct d0 as [x | | | | ];
      repeat (cbn [fdiv norm.pdf fneg]; Rcases); try reflexivity; lra. }
  assert (Hentry : forall d, PI_gradient_entry NZero (fdiv d0 NZero) d = NaN).
  { intros d. unfold PI_gradient_entry. rewrite Hcoef.
    destruct (fadd _ _); reflexivity. }
  rewrite (map_ext _ (fun _ => NaN) Hentry), map_const, length_combine, <- Hd.
  now rewrite Nat.min_id.
Qed.

(** ** The sign of the gradient of PI *)

Lemma PI_score_deriv (mfun vfun : R -> R) (e q x m' v' : R) :
  derivable_pt_lim mfun x m' ->
  derivable_pt_lim vfun x v' ->
  0 < vfun x ->
  derivable_pt_lim (PI_score mfun vfun e q) x
    (- (Gauss.pdf ((e - mfun x - q) / sqrt (vfun x)) / sqrt (vfun x)
        * (m' + v' / (2 * sqrt (vfun x)) * ((e - mfun x - q) / sqrt (vfun x))))).
Proof.
  intros Hm Hv Hpos.
  assert (Hs : 0 < sqrt (vfun x)) by now apply sqrt_lt_R0.
  pose (num := fun t => e - mfun t - q).
  pose (den := comp sqrt vfun).
  assert (Hnum : derivable_pt_lim num x (0 - m' - 0)).
  { unfold num.
    apply (derivable_pt_lim_minus (fun t => e - mfun t) (fct_cte q));
      [ | apply derivable_pt_lim_const].
    apply (derivable_pt_lim_minus (fct_cte e) mfun);
      [apply derivable_pt_lim_const | exact Hm]. }
  assert (Hden : derivable_pt_lim den x (/ (2 * sqrt (vfun x)) * v')).
  { unfold den. apply derivable_pt_lim_comp; [exact Hv | ].
    now apply derivable_pt_lim_sqrt. }
  assert (Hz : derivable_pt_lim (num / den)%F x
                 (((0 - m' - 0) * den x - / (2 * sqrt (vfun x)) * v' * num x)
                  / Rsqr (den x))).
  { apply derivable_pt_lim_div; [exact Hnum | exact Hden | ].
    unfold den, comp. lra. }
  apply (derivable_pt_lim_ext (comp Gauss.cdf (num / den)%F)).
  { intros t. reflexivity. }
  replace (- (Gauss.pdf ((e - mfun x - q) / sqrt (vfun x)) / sqrt (vfun x)
              * (m' + v' / (2 * sqrt (vfun x)) * ((e - mfun x - q) / sqrt (vfun x)))))
    with (Gauss.pdf ((num / den)%F x)
          * (((0 - m' - 0) * den x - / (2 * sqrt (vfun x)) * v' * num x)
             / Rsqr (den x))).
  - apply derivable_pt_lim_comp; [exact Hz | apply cdf_deriv].
  - unfold div_fct, num, den, comp, Rsqr. field. lra.
Qed.

(** X15: the gradient PI returns has the sign opposite to the slope of
    the score it returns.  For a model of a one-dimensional space whose
    mean and variance are differentiable at [x], with a positive variance
    there, and whose [predictive_gradients] are these derivatives, the call
    with the derivative returns the score [Phi(z)] and a gradient [g] such
    that the derivative of the score along [x] is [-g]. *)
Theorem PI_gradient_is_negated_slope (self : PI.t) (mdl : Model)
    (Z : features) (mfun vfun : R -> R) (e q x m' v' : R) :
  PI.par self = Fin q ->
  PI.out_of_bounds self [[Fin x]] = false ->
  (forall t, model_predict mdl [[Fin t]] Z = Arr1 [(Fin (mfun t), Fin (vfun t))]) ->
  model_getCurrentBest mdl = Fin e ->
  model_predictive_gradients mdl [[Fin x]] = ([[[Fin m']]], [[Fin v']]) ->
  derivable_pt_lim mfun x m' ->
  derivable_pt_lim vfun x v' ->
  0 < vfun x ->
  exists g : R,
    snd (run mdl (PI.__call__ self [[Fin x]] Z true)) =
      Returned (PI.ScoreGrad [[Fin (PI_score mfun vfun e q x)]] [[[Fin g]]]) /\
    derivable_pt_lim (PI_score mfun vfun e q) x (- g) /\
    (forall t, PI.out_of_bounds self [[Fin t]] = false -> 0 < vfun t ->
       snd (run mdl (PI.__call__ self [[Fin t]] Z false)) =
         Returned (PI.Score [[Fin (PI_score mfun vfun e q t)]])).
Proof.
  intros Hpar Hin Hp He Hg Hm Hv Hpos.
  assert (Hs : 0 < sqrt (vfun x)) by now apply sqrt_lt_R0.
  set (s := sqrt (vfun x)) in *.
  set (z := (e - mfun x - q) / s).
  exists (Gauss.pdf z / s * (m' + v' / (2 * s) * z)).
  split; [ | split].
  - rewrite (PI_run_with_gradient self mdl [[Fin x]] Z
               (Fin (mfun x)) (Fin (vfun x)) [Fin m'] [Fin v'] [] []
               ltac:(simpl; lia) Hin (Hp x) Hg eq_refl ltac:(discriminate)).
    cbn [snd combine List.map]. rewrite He, Hpar.
    rewrite (np_sqrt_pos (vfun x)) by exact Hs. fold s.
    unfold PI_gradient_entry. cbn [fst snd].
    rewrite !fsub_Fin, (fdiv_Fin _ s) by (intros; lra).
    change ((e + - mfun x + - q) / s) with z.
    cbn [norm.cdf norm.pdf].
    pose proof (Gauss.pdf_pos z) as Hphi.
    assert (Hk : 0 < Gauss.pdf z / s) by now apply Rdiv_lt_0_compat.
    assert (Hk' : - Gauss.pdf z / s = - (Gauss.pdf z / s)) by (field; lra).
    rewrite (fneg_Fin (Gauss.pdf z)) by lra.
    rewrite (fdiv_Fin (- Gauss.pdf z) s) by (intros; lra).
    rewrite (fneg_Fin (- Gauss.pdf z / s)) by lra.
    rewrite (fmul_Fin 2 s) by (intros; lra).
    rewrite (fdiv_Fin v' (2 * s)) by (intros; lra).
    rewrite fadd_fmul_Fin.
    rewrite fmul_Fin by (intros; lra).
    unfold PI_score. fold s. fold z. do 2 f_equal.
    assert (Hval : - (- Gauss.pdf z / s) * (m' + v' / (2 * s) * z)
                   = Gauss.pdf z / s * (m' + v' / (2 * s) * z))
      by (field; lra).
    now rewrite Hval.
  - apply (PI_score_deriv mfun vfun e q x m' v' Hm Hv Hpos).
  - intros t Hint Hvt.
    rewrite (PI_run_vector self mdl [[Fin t]] Z _ ltac:(simpl; lia) Hint (Hp t)).
    cbn [snd List.map]. rewrite He.
    rewrite (PI_cell_pos_variance self e (mfun t) q (vfun t) Hpar)
      by now apply sqrt_lt_R0.
    reflexivity.
Qed.

Lemma PI_gradient_is_negated_slope_witness :
  exists g : R,
    snd (run line_model (PI.__call__ unit_box_PI [[Fin (1 / 2)]] None true)) =
      Returned (PI.ScoreGrad
                  [[Fin (PI_score (fun t => t) (fun _ => 1) 0 (1 / 10) (1 / 2))]]
                  [[[Fin g]]]) /\
    derivable_pt_lim (PI_score (fun t => t) (fun _ => 1) 0 (1 / 10)) (1 / 2) (- g).
Proof.
  destruct (PI_gradient_is_negated_slope unit_box_PI line_model None
              (fun t => t) (fun _ => 1) 0 (1 / 10) (1 / 2) 1 0
              eq_refl x_inside_PI (fun t => eq_refl) eq_refl eq_refl
              (derivable_pt_lim_id (1 / 2))
              (derivable_pt_lim_const 1 (1 / 2))
              ltac:(lra))
    as (g & Hrun & Hslope & _).
  exists g. exact (conj Hrun Hslope).
Defined.
